(** * ctree.js: a shallow embedding of the tree renderer and its properties

    The development follows [src/ctree.js]: option merging and validation
    ([mergeOptions]), the literal template ([input]), placeholder
    substitution ([modifyTemplate]), random colouring of the light positions
    ([applyColorsToLights], [generateColor], [getRandomInt]) and the
    category colouring passes ([applyColors], [applyColorToChars]).

    JavaScript strings are sequences of UTF-16 code units, modelled as
    [list N].  Objects are association lists kept in property-creation
    order; enumeration order (integer-like keys first) is computed by
    [ownProps].  Exceptions are an explicit [result] type. *)

From Stdlib Require Import List NArith ZArith Bool Arith Lia String Ascii.
From Stdlib Require Import Permutation.
Import ListNotations.

Set Warnings "-register-all".

(** ** Strings as code-unit sequences *)

Definition str := list N.

Definition lit (s : string) : str :=
  List.map N_of_ascii (list_ascii_of_string s).

Definition str_eqb (a b : str) : bool :=
  if list_eq_dec N.eq_dec a b then true else false.

Arguments str_eqb : simpl never.

Lemma str_eqb_eq (a b : str) : str_eqb a b = true <-> a = b.
Proof.
  unfold str_eqb. destruct (list_eq_dec N.eq_dec a b); split; congruence.
Qed.

Fixpoint isPrefix (p s : str) : bool :=
  match p, s with
  | [], _ => true
  | _ :: _, [] => false
  | x :: p', y :: s' => N.eqb x y && isPrefix p' s'
  end.

(** [includes s p]: the JavaScript [s.includes(p)], substring test. *)
Fixpoint includes (s p : str) : bool :=
  isPrefix p s || match s with [] => false | _ :: s' => includes s' p end.

(** Number of positions at which [p] occurs in [s]. *)
Fixpoint occurrences (p s : str) : nat :=
  (if isPrefix p s then 1 else 0) +
  match s with [] => 0 | _ :: s' => occurrences p s' end.

(** *** [String.prototype.split] with a string separator, [Array.prototype.join]

    [splitGo] scans left to right; [skip] counts the code units of the
    current separator occurrence still to be dropped, [cur] is the piece
    being collected, reversed. *)
Fixpoint splitGo (sep s : str) (skip : nat) (cur : str) : list str :=
  match s with
  | [] => [rev cur]
  | c :: s' =>
    match skip with
    | S k => splitGo sep s' k cur
    | O => if isPrefix sep s
           then rev cur :: splitGo sep s' (List.length sep - 1) []
           else splitGo sep s' 0 (c :: cur)
    end
  end.

Definition split (s sep : str) : list str :=
  match sep with
  | [] => List.map (fun c => [c]) s
  | _ :: _ => splitGo sep s 0 []
  end.

Fixpoint join (l : list str) (sep : str) : str :=
  match l with
  | [] => []
  | [x] => x
  | x :: rest => x ++ sep ++ join rest sep
  end.

(** The idiom [s.split(a).join(b)] used throughout the source. *)
Definition splitJoin (s a b : str) : str := join (split s a) b.

(** ** Results of a call: a value, a thrown exception, or a construct of
    the regular-expression language that this development does not model *)

Inductive error :=
| InvalidOption (message : str)   (* [new Error(...)] of [mergeOptions] *)
| TypeError                        (* [Object.entries(null)] and the like *)
| SyntaxError.                     (* [new RegExp] on an invalid pattern *)

Inductive result (A : Type) :=
| Ok (a : A)
| Throw (e : error)
| Unmodelled.

Arguments Ok {A} a.
Arguments Throw {A} e.
Arguments Unmodelled {A}.

Definition bind {A B} (r : result A) (f : A -> result B) : result B :=
  match r with
  | Ok a => f a
  | Throw e => Throw e
  | Unmodelled => Unmodelled
  end.

Notation "x <- r ;; k" := (bind r (fun x => k))
  (at level 61, r at next level, right associativity).

(** ** JavaScript values *)

Inductive value :=
| VUndefined
| VNull
| VBool (b : bool)
| VNumber
| VBigInt
| VSymbol
| VFunction
| VString (s : str)
| VArray (elems : list value)
| VObject (props : list (str * value)).

Definition obj := list (str * value).

Definition typeof (v : value) : str :=
  match v with
  | VUndefined => lit "undefined"
  | VNull => lit "object"
  | VBool _ => lit "boolean"
  | VNumber => lit "number"
  | VBigInt => lit "bigint"
  | VSymbol => lit "symbol"
  | VFunction => lit "function"
  | VString _ => lit "string"
  | VArray _ => lit "object"
  | VObject _ => lit "object"
  end.

Definition isArray (v : value) : bool :=
  match v with VArray _ => true | _ => false end.

Definition isString (v : value) : bool :=
  match v with VString _ => true | _ => false end.

(** *** Property tables *)

Fixpoint getProp (o : obj) (k : str) : option value :=
  match o with
  | [] => None
  | (k', v) :: o' => if str_eqb k' k then Some v else getProp o' k
  end.

(** [CreateDataProperty]: an existing key keeps its place, a new key is
    created last. *)
Fixpoint setProp (o : obj) (k : str) (v : value) : obj :=
  match o with
  | [] => [(k, v)]
  | (k', v') :: o' =>
    if str_eqb k' k then (k', v) :: o' else (k', v') :: setProp o' k v
  end.

(** Decimal rendering of an index, and its inverse on canonical numerals. *)
Definition isDigit (c : N) : bool := (48 <=? c)%N && (c <=? 57)%N.

Fixpoint digitsValue (acc : N) (s : str) : option N :=
  match s with
  | [] => Some acc
  | c :: s' => if isDigit c then digitsValue (acc * 10 + (c - 48))%N s' else None
  end.

(** An array index is a canonical numeral below 2^32 - 1. *)
Definition arrayIndex (k : str) : option N :=
  match k with
  | [] => None
  | [c] => if isDigit c then Some (c - 48)%N else None
  | c :: _ :: _ =>
    if N.eqb c 48 then None
    else match digitsValue 0 k with
         | Some n => if (n <? 4294967295)%N then Some n else None
         | None => None
         end
  end.

Fixpoint insertIndexed (e : N * (str * value)) (l : list (N * (str * value)))
  : list (N * (str * value)) :=
  match l with
  | [] => [e]
  | e' :: l' => if (fst e <? fst e')%N then e :: e' :: l'
                else e' :: insertIndexed e l'
  end.

Fixpoint indexedProps (o : obj) : list (N * (str * value)) :=
  match o with
  | [] => []
  | (k, v) :: o' =>
    match arrayIndex k with
    | Some n => insertIndexed (n, (k, v)) (indexedProps o')
    | None => indexedProps o'
    end
  end.

Definition namedProps (o : obj) : obj :=
  List.filter (fun kv => match arrayIndex (fst kv) with
                         | Some _ => false | None => true end) o.

(** [OrdinaryOwnPropertyKeys]: array indices ascending, then the other
    string keys in creation order. *)
Definition ownProps (o : obj) : obj :=
  List.map snd (indexedProps o) ++ namedProps o.

(** Decimal numerals, as produced by [String(n)] for a non-negative integer. *)
Fixpoint uintStr (u : Decimal.uint) : str :=
  match u with
  | Decimal.Nil => []
  | Decimal.D0 u' => 48%N :: uintStr u'
  | Decimal.D1 u' => 49%N :: uintStr u'
  | Decimal.D2 u' => 50%N :: uintStr u'
  | Decimal.D3 u' => 51%N :: uintStr u'
  | Decimal.D4 u' => 52%N :: uintStr u'
  | Decimal.D5 u' => 53%N :: uintStr u'
  | Decimal.D6 u' => 54%N :: uintStr u'
  | Decimal.D7 u' => 55%N :: uintStr u'
  | Decimal.D8 u' => 56%N :: uintStr u'
  | Decimal.D9 u' => 57%N :: uintStr u'
  end.

Definition decimal (n : N) : str := uintStr (N.to_uint n).

Fixpoint indexFrom {A B} (f : A -> B) (i : N) (l : list A) : list (str * B) :=
  match l with
  | [] => []
  | x :: l' => (decimal i, f x) :: indexFrom f (N.succ i) l'
  end.

(** Own enumerable string-keyed properties of [ToObject(v)], in order. *)
Definition enumerable (v : value) : obj :=
  match v with
  | VObject o => ownProps o
  | VString s => indexFrom (fun c => VString [c]) 0 s
  | VArray l => indexFrom (fun x => x) 0 l
  | _ => []
  end.

(** Object spread [{...target, ...source}]: [CopyDataProperties]. *)
Definition spreadInto (target : obj) (source : value) : obj :=
  fold_left (fun o kv => setProp o (fst kv) (snd kv)) (enumerable source) target.

(** [Object.entries] and [Object.values]: they throw on null and undefined. *)
Definition objectEntries (v : value) : result obj :=
  match v with
  | VUndefined | VNull => Throw TypeError
  | _ => Ok (enumerable v)
  end.

Definition objectValues (v : value) : result (list value) :=
  e <- objectEntries v ;; Ok (List.map snd e).

(** [for (const k in v)]: no iteration on null and undefined. *)
Definition forIn (v : value) : obj := enumerable v.

Definition getV (o : obj) (k : str) : value :=
  match getProp o k with Some v => v | None => VUndefined end.

(** ** mergeOptions *)

Definition defaultStar : obj :=
  [ (lit "TOP", VString (lit "|"));
    (lit "TREE_STAR", VString (lit "+"));
    (lit "LEFT", VString (lit "-"));
    (lit "RIGHT", VString (lit "-"));
    (lit "BOTTOM", VString (lit "A")) ].

Definition defaultOptions : obj :=
  [ (lit "star", VObject defaultStar);
    (lit "balls", VString (lit "O"));
    (lit "stars", VString (lit "*")) ].

Definition subMessage (key subKey : str) (v : value) : str :=
  lit "Invalid value for " ++ key ++ lit "." ++ subKey ++
  lit ": expected a string but got " ++ typeof v.

Definition topMessage (key : str) (v : value) : str :=
  lit "Invalid value for " ++ key ++
  lit ": expected a string but got " ++ typeof v.

Fixpoint validateSub (key : str) (subs : obj) : result unit :=
  match subs with
  | [] => Ok tt
  | (subKey, v) :: rest =>
    if negb (str_eqb (typeof v) (lit "string"))
    then Throw (InvalidOption (subMessage key subKey v))
    else validateSub key rest
  end.

Fixpoint validateOptions (props : obj) : result unit :=
  match props with
  | [] => Ok tt
  | (key, v) :: rest =>
    if str_eqb (typeof v) (lit "object") && negb (isArray v)
    then _ <- validateSub key (forIn v) ;; validateOptions rest
    else if negb (str_eqb (typeof v) (lit "string"))
    then Throw (InvalidOption (topMessage key v))
    else validateOptions rest
  end.

(** The merged object itself, before validation:
    [{ ...defaultOptions, ...newOptions }]. *)
Definition mergedOptions (newOptions : value) : obj :=
  spreadInto (spreadInto [] (VObject defaultOptions)) newOptions.

Definition mergeOptions (newOptions : value) : result obj :=
  let newOptions :=
    match newOptions with VUndefined => VObject [] | v => v end in
  let merged := mergedOptions newOptions in
  _ <- validateOptions (ownProps merged) ;;
  Ok merged.


(** ** Colours *)

Record Color := mkColor { r : N; g : N; b : N }.

Definition ESC : N := 27.

(** [ToString] of an object ([OrdinaryToPrimitive] with hint string): the
    [toString] method is tried first, then [valueOf].  Without an own
    [toString] the inherited one answers [[object Object]].  An own
    [toString] that is not callable is passed over; [valueOf] then gives
    no primitive (the inherited one returns the object itself, an own
    non-callable one is passed over), and the conversion throws.  Calling
    a function the caller supplied is not modelled. *)
Definition objectToString (o : obj) : result str :=
  match getProp o (lit "toString") with
  | None => Ok (lit "[object Object]")
  | Some VFunction => Unmodelled
  | Some _ =>
    match getProp o (lit "valueOf") with
    | Some VFunction => Unmodelled
    | _ => Throw TypeError
    end
  end.

(** [ToString] on the values that can reach a template literal, a string
    concatenation or a [join] separator. *)
Definition toStringV (v : value) : result str :=
  match v with
  | VString s => Ok s
  | VNull => Ok (lit "null")
  | VUndefined => Ok (lit "undefined")
  | VBool true => Ok (lit "true")
  | VBool false => Ok (lit "false")
  | VObject o => objectToString o
  | VSymbol => Throw TypeError
  | VNumber | VBigInt | VFunction | VArray _ => Unmodelled
  end.

Definition toAnsi (c : Color) : str :=
  ESC :: lit "[38;2;" ++ decimal (r c) ++ lit ";" ++ decimal (g c) ++
  lit ";" ++ decimal (b c) ++ lit "m".

Definition reset : str := ESC :: lit "[0m".

(** [Color.format] on text already converted to a string. *)
Definition formatStr (c : Color) (char : str) : str :=
  toAnsi c ++ char ++ reset.

Definition format (c : Color) (char : value) : result str :=
  s <- toStringV char ;; Ok (formatStr c s).

Definition yellow : Color := mkColor 255 255 0.
Definition green : Color := mkColor 0 255 0.
Definition brown : Color := mkColor 210 105 30.

(** ** The template *)

Definition input : str := lit
"
         yTOP
        yLEFTyANGELyRIGHT
         yA
        g/g=g\               /\  /\    ___  _ __  _ __ __    __
      10g/ ySTAR g\20            /  \/  \  / _ \| '__|| '__|\ \  / /
      g/g=g=g=g=g=g\           / /\  /\ \|  __/| |   | |    \ \/ /
      g/  3BALL  g\          \_\ \/ /_/ \___/|_|   |_|     \  /
    40g/ 50 ySTAR 60 g\70                                       / /
    g/g=g=g=g=g=g=g=g=g=g\        __  __                        /_/    _
    g/  ySTAR   ySTAR  g\        \ \/ /        /\  /\    ____  ____  | |
  80g/ ySTAR   90   ySTAR g\100       \  /   __   /  \/  \  / _  |/ ___\ |_|
  g/g=g=g=g=g=g=g=g=g=g=g=g=g=g\       /  \  |__| / /\  /\ \| (_| |\___ \  _
  g/  140   ySTAR   150  g\      /_/\_\      \_\ \/ /_/ \__,_|\____/ |_|
160g/ ySTAR   170   180   ySTAR g\190
g/g=g=g=g=g=g=g=g=g=g=g=g=g=g=g=g=g=g\
       b|   b|
       b|b_b_b_b|
".

(** ** modifyTemplate *)

(** [parts.join(sep)]: an undefined separator means a comma. *)
Definition joinV (parts : list str) (sep : value) : result str :=
  match sep with
  | VUndefined => Ok (join parts (lit ","))
  | _ => s <- toStringV sep ;; Ok (join parts s)
  end.

Fixpoint replaceEach (modified : str) (entries : obj) : result str :=
  match entries with
  | [] => Ok modified
  | (charToReplace, newChar) :: rest =>
    m <- joinV (split modified charToReplace) newChar ;;
    replaceEach m rest
  end.

Definition modifyTemplate (input : str) (replacements : value) : result str :=
  entries <- objectEntries replacements ;;
  replaceEach input entries.

(** ** applyColorToChars and applyColors *)

Fixpoint applyColorToChars (applied : str) (color : Color) (charPrefix : str)
    (chars : list value) : result str :=
  match chars with
  | [] => Ok applied
  | char :: rest =>
    coloredChar <- format color char ;;
    c <- toStringV char ;;
    applyColorToChars (join (split applied (charPrefix ++ c)) coloredChar)
                      color charPrefix rest
  end.

(** The array [[...Object.values(options.star),
    ...Object.values(options.stars)]]. *)
Definition yellowChars (options : obj) : result (list value) :=
  starValues <- objectValues (getV options (lit "star")) ;;
  starsValues <- objectValues (getV options (lit "stars")) ;;
  Ok (starValues ++ starsValues).

Definition greenChars : list value :=
  [VString (lit "/"); VString (lit "\"); VString (lit "=")].

Definition brownChars : list value :=
  [VString (lit "|"); VString (lit "_")].

Definition applyColors (options : obj) (base : str) : result str :=
  chars <- yellowChars options ;;
  applied <- applyColorToChars base yellow (lit "y") chars ;;
  applied <- applyColorToChars applied green (lit "g") greenChars ;;
  applyColorToChars applied brown (lit "b") brownChars.

(** ** Regular expressions: the fragment of the pattern language modelled

    [applyColorsToLights] builds its pattern from the text of the [balls]
    option, so the pattern is parsed here as [new RegExp] does.  The
    fragment covers pattern characters, [\d], capturing groups and the
    quantifiers [*], [+], [?] with their lazy forms.  Other constructs
    (classes, braces, alternation, anchors, other escapes, [(?:] and
    friends) give [Unmodelled]. *)

Inductive regex :=
| Eps
| Chr (c : N)
| Dig
| Cat (a b : regex)
| Grp (body : regex)
| Quant (body : regex) (min : nat) (max : option nat) (greedy : bool).

Definition chBackslash : N := 92.
Definition chLParen : N := 40.
Definition chRParen : N := 41.
Definition chStar : N := 42.
Definition chPlus : N := 43.
Definition chQuestion : N := 63.

(** Characters with a syntactic role that the fragment does not cover:
    [[ ] { } | ^ $ .] *)
Definition unmodelledChar (c : N) : bool :=
  existsb (N.eqb c) [91; 93; 123; 125; 124; 94; 36; 46]%N.

(** After an atom: an optional quantifier, itself optionally lazy. *)
Definition parseQuantifier (atom : regex) (s : str) : regex * str :=
  let lazy (min : nat) (max : option nat) (rest : str) :=
    match rest with
    | c :: rest' =>
      if N.eqb c chQuestion then (Quant atom min max false, rest')
      else (Quant atom min max true, rest)
    | [] => (Quant atom min max true, rest)
    end in
  match s with
  | c :: rest =>
    if N.eqb c chStar then lazy 0 None rest
    else if N.eqb c chPlus then lazy 1 None rest
    else if N.eqb c chQuestion then lazy 0 (Some 1) rest
    else (atom, s)
  | [] => (atom, s)
  end.

(** [parseTerms fuel s] reads terms up to the end of the pattern or to a
    closing parenthesis, which it leaves in the remainder. *)
Fixpoint parseTerms (fuel : nat) (s : str) : result (regex * str) :=
  match fuel with
  | O => Unmodelled
  | S fuel' =>
    match s with
    | [] => Ok (Eps, [])
    | c :: rest =>
      if N.eqb c chRParen then Ok (Eps, s)
      else
        atom <-
          (if N.eqb c chLParen then
             match rest with
             | c2 :: rest2 =>
               if N.eqb c2 chQuestion then
                 match rest2 with
                 | c3 :: _ =>
                   if existsb (N.eqb c3) [58; 61; 33; 60]%N
                   then Unmodelled          (* (?: (?= (?! (?< *)
                   else Throw SyntaxError   (* invalid group *)
                 | [] => Throw SyntaxError
                 end
               else
                 inner <- parseTerms fuel' rest ;;
                 match snd inner with
                 | c4 :: rest4 =>
                   if N.eqb c4 chRParen then Ok (Grp (fst inner), rest4)
                   else Throw SyntaxError
                 | [] => Throw SyntaxError  (* unterminated group *)
                 end
             | [] => Throw SyntaxError      (* unterminated group *)
             end
           else if N.eqb c chBackslash then
             match rest with
             | c2 :: rest2 =>
               if N.eqb c2 100 then Ok (Dig, rest2) else Unmodelled
             | [] => Throw SyntaxError      (* \ at end of pattern *)
             end
           else if N.eqb c chStar || N.eqb c chPlus || N.eqb c chQuestion
           then Throw SyntaxError           (* nothing to repeat *)
           else if unmodelledChar c then Unmodelled
           else Ok (Chr c, rest)) ;;
        let (term, rest') := parseQuantifier (fst atom) (snd atom) in
        more <- parseTerms fuel' rest' ;;
        Ok (Cat term (fst more), snd more)
    end
  end.

(** [new RegExp(pattern, "g")] *)
Definition RegExp (pattern : str) : result regex :=
  parsed <- parseTerms (S (List.length pattern)) pattern ;;
  match snd parsed with
  | [] => Ok (fst parsed)
  | _ :: _ => Throw SyntaxError             (* unmatched ) *)
  end.

(** *** Backtracking matcher

    [rmatch r s k] matches [r] at the start of [s] and hands the rest to
    the continuation [k], in the priority order of the language
    definition: a greedy quantifier tries one more iteration first, a lazy
    one tries the continuation first; an iteration of an optional body
    that consumes nothing is rejected. *)

Inductive mres := MFail | MStuck | MOk (rest : str).

Definition orElse (a : mres) (b : unit -> mres) : mres :=
  match a with
  | MFail => b tt
  | _ => a
  end.

Definition predMax (max : option nat) : option nat :=
  match max with Some n => Some (Nat.pred n) | None => None end.

Fixpoint rmatch (r : regex) (s : str) (k : str -> mres) {struct r} : mres :=
  match r with
  | Eps => k s
  | Chr c =>
    match s with
    | x :: s' => if N.eqb x c then k s' else MFail
    | [] => MFail
    end
  | Dig =>
    match s with
    | x :: s' => if isDigit x then k s' else MFail
    | [] => MFail
    end
  | Cat a b => rmatch a s (fun s1 => rmatch b s1 k)
  | Grp body => rmatch body s k
  | Quant body min max greedy =>
    (fix rep (fuel : nat) (min : nat) (max : option nat) (s : str)
         {struct fuel} : mres :=
       match fuel with
       | O => MStuck
       | S fuel' =>
         match max with
         | Some O => k s
         | _ =>
           let iter (_ : unit) :=
             rmatch body s (fun s' =>
               if Nat.eqb min 0 && Nat.eqb (List.length s') (List.length s)
               then MFail
               else rep fuel' (Nat.pred min) (predMax max) s') in
           if negb (Nat.eqb min 0) then iter tt
           else if greedy then orElse (iter tt) (fun _ => k s)
           else orElse (k s) iter
         end
       end) (S (List.length s + min)) min max s
  end.

(** One attempt at a position: the matched text, if any. *)
Definition execAt (rx : regex) (s : str) : result (option str) :=
  match rmatch rx s MOk with
  | MOk rest => Ok (Some (firstn (List.length s - List.length rest) s))
  | MFail => Ok None
  | MStuck => Unmodelled
  end.

(** All matches of a global regex, left to right: the text before each
    match with the match, and the text after the last one.  After an empty
    match the search resumes one code unit further. *)
Fixpoint matchAll (rx : regex) (s : str) (skip : nat) (cur : str)
  : result (list (str * str) * str) :=
  match skip, s with
  | S k, _ :: s' => matchAll rx s' k cur
  | S _, [] => Ok ([], rev cur)
  | O, _ =>
    m <- execAt rx s ;;
    match m, s with
    | Some matched, [] => Ok ([(rev cur, matched)], [])
    | Some matched, c :: s' =>
      more <- (match List.length matched with
               | O => matchAll rx s' 0 [c]
               | S n => matchAll rx s' n []
               end) ;;
      Ok ((rev cur, matched) :: fst more, snd more)
    | None, [] => Ok ([], rev cur)
    | None, c :: s' => matchAll rx s' 0 (c :: cur)
    end
  end.

(** ** Random numbers

    [Math.random()] returns a binary64 number in [0, 1).  Every such number
    is [mant / 2^expo] with [0 <= mant < 2^53] and [53 <= expo <= 1074]. *)

Definition unitRange (mant expo : Z) : bool :=
  ((0 <=? mant) && (mant <? 2 ^ 53) && (53 <=? expo) && (expo <=? 1074))%Z.

Record unitDouble := mkUnit {
  mant : Z;
  expo : Z;
  inRange : unitRange mant expo = true
}.

(** The source of randomness: the result of the i-th call of
    [Math.random()]. *)
Definition rng := nat -> unitDouble.

(** Round a non-negative integer to a multiple of [2^sh], to nearest, ties
    to even. *)
Definition roundShift (n sh : Z) : Z :=
  let q := Z.shiftr n sh in
  let rem := (n - Z.shiftl q sh)%Z in
  let half := Z.shiftl 1 (sh - 1) in
  if (rem <? half)%Z then Z.shiftl q sh
  else if (half <? rem)%Z then Z.shiftl (q + 1) sh
  else if Z.even q then Z.shiftl q sh else Z.shiftl (q + 1) sh.

(** Rounding to 53 significant bits, the precision of binary64. *)
Definition round53 (n : Z) : Z :=
  let sh := (Z.log2 n - 52)%Z in
  if (sh <=? 0)%Z then n else roundShift n sh.

(** [Math.floor(Math.random() * max)] for a small non-negative integer
    [max]: the product [max * mant / 2^expo] is rounded to binary64, then
    floored. *)
Definition getRandomInt (max : Z) (u : unitDouble) : Z :=
  Z.shiftr (round53 (max * mant u)) (expo u).

Definition pink : Color := mkColor 247 108 246.
Definition lightBlue : Color := mkColor 85 202 255.
Definition purple : Color := mkColor 100 0 255.
Definition red : Color := mkColor 236 21 0.
Definition orange : Color := mkColor 243 213 0.
Definition lightGreen : Color := mkColor 100 255 24.
Definition white : Color := mkColor 255 255 255.

Definition palette : list Color :=
  [pink; lightBlue; purple; red; orange; lightGreen].

(** The [switch] of [generateColor]. *)
Definition selectColor (selection : Z) : Color :=
  match selection with
  | 0%Z => pink
  | 1%Z => lightBlue
  | 2%Z => purple
  | 3%Z => red
  | 4%Z => orange
  | 5%Z => lightGreen
  | _ => white
  end.

Definition generateColor (u : unitDouble) (input : value) : result str :=
  let selection := getRandomInt 6 u in
  format (selectColor selection) input.

(** ** applyColorsToLights *)

(** [input.replace(regex, callback)]: the callback is called once per
    match, in order; [i] is the number of random draws made so far. *)
Fixpoint replaceMatches (balls : value) (rnd : rng) (i : nat)
    (matches : list (str * str)) (tail : str) : result str :=
  match matches with
  | [] => Ok tail
  | (before, _) :: rest =>
    colored <- generateColor (rnd i) balls ;;
    more <- replaceMatches balls rnd (S i) rest tail ;;
    Ok (before ++ colored ++ more)
  end.

Definition lightsPattern (balls : value) : result str :=
  b <- toStringV balls ;; Ok (lit "(\d+)" ++ b ++ lit "?").

(** The matches of the lights pattern in a text. *)
Definition lightMatches (options : obj) (input : str)
  : result (list (str * str) * str) :=
  pattern <- lightsPattern (getV options (lit "balls")) ;;
  regex <- RegExp pattern ;;
  matchAll regex input 0 [].

Definition applyColorsToLights (options : obj) (rnd : rng) (input : str)
  : result str :=
  found <- lightMatches options input ;;
  replaceMatches (getV options (lit "balls")) rnd 0 (fst found) (snd found).

(** ** ctree *)

(** The template after both substitution passes. *)
Definition substituted (options : obj) : result str :=
  input1 <- modifyTemplate input (getV options (lit "star")) ;;
  modifyTemplate input1
    (VObject [ (lit "BALL", getV options (lit "balls"));
               (lit "STAR", getV options (lit "stars")) ]).

Definition ctree (options : value) (rnd : rng) : result str :=
  options <- mergeOptions options ;;
  input2 <- substituted options ;;
  lights <- applyColorsToLights options rnd input2 ;;
  applyColors options lights.

(** ** Derived notions used in the statements *)

(** Number of light positions: the matches of the lights pattern in the
    substituted template. *)
Definition lightPositions (options : value) : result nat :=
  options <- mergeOptions options ;;
  text <- substituted options ;;
  found <- lightMatches options text ;;
  Ok (List.length (fst found)).

(** The coloured glyphs produced by draws [i], [i+1], ..., [i+n-1]. *)
Fixpoint lights (b : str) (rnd : rng) (i n : nat) : list str :=
  match n with
  | O => []
  | S n' =>
    formatStr (selectColor (getRandomInt 6 (rnd i))) b :: lights b rnd (S i) n'
  end.

(** [weave segs ls tail]: the pieces [segs] with the strings [ls] put
    after each of them, then [tail]. *)
Fixpoint weave (segs ls : list str) (tail : str) : str :=
  match segs, ls with
  | x :: segs', l :: ls' => x ++ l ++ weave segs' ls' tail
  | _, _ => tail
  end.

(** Replacement by a single left-to-right scan; same result as
    [split] then [join] (lemma [splitJoin_scan]). *)
Fixpoint replScan (p r s : str) (skip : nat) : str :=
  match s with
  | [] => []
  | c :: s' =>
    match skip with
    | S k => replScan p r s' k
    | O => if isPrefix p s then r ++ replScan p r s' (List.length p - 1)
           else c :: replScan p r s' 0
    end
  end.

Definition member (c : N) (s : str) : bool := existsb (N.eqb c) s.

(** No code unit of [p] belongs to [alphabet]. *)
Definition avoids (alphabet p : str) : bool :=
  forallb (fun c => negb (member c alphabet)) p.

Definition within (alphabet s : str) : bool :=
  forallb (fun c => member c alphabet) s.

(** Code units that can occur in a coloured light glyph. *)
Definition lightAlphabet (b : str) : str :=
  ESC :: lit "[;m0123456789" ++ b.

(** The three colouring passes on text, for glyph lists already converted
    to strings. *)
Definition colorChars (applied : str) (color : Color) (charPrefix : str)
    (chars : list str) : str :=
  fold_left
    (fun acc c => splitJoin acc (charPrefix ++ c) (formatStr color c))
    chars applied.

Definition greenStrs : list str := [lit "/"; lit "\"; lit "="].
Definition brownStrs : list str := [lit "|"; lit "_"].

Definition paint (ys : list str) (base : str) : str :=
  colorChars
    (colorChars (colorChars base yellow (lit "y") ys)
                green (lit "g") greenStrs)
    brown (lit "b") brownStrs.

Fixpoint stringsOf (chars : list value) : result (list str) :=
  match chars with
  | [] => Ok []
  | v :: rest =>
    s <- toStringV v ;; more <- stringsOf rest ;; Ok (s :: more)
  end.

(** The marker-prefixed patterns the colouring passes look for. *)
Definition markerPatterns (ys : list str) : list str :=
  List.map (fun c => lit "y" ++ c) ys ++
  List.map (fun c => lit "g" ++ c) greenStrs ++
  List.map (fun c => lit "b" ++ c) brownStrs.

(** No key occurs twice in a property table. *)
Fixpoint uniqueKeys (o : obj) : bool :=
  match o with
  | [] => true
  | (k, _) :: o' =>
    negb (existsb (fun kv => str_eqb (fst kv) k) o') && uniqueKeys o'
  end.

(** The marker patterns share no code unit with the inserted lights. *)
Definition paintable (A : str) (ys : list str) : bool :=
  forallb (avoids A) (markerPatterns ys).

(** The coloured text around the lights: for each light the text before
    it, then the text after the last one, and the ball text.  Defined when
    the marker patterns share no code unit with the lights, so that the
    colouring passes leave the lights alone. *)
Definition frames (options : value) : result (list str * str * str) :=
  opts <- mergeOptions options ;;
  text <- substituted opts ;;
  found <- lightMatches opts text ;;
  b <- toStringV (getV opts (lit "balls")) ;;
  ys <- yellowChars opts ;;
  cs <- stringsOf ys ;;
  if paintable (lightAlphabet b) cs
  then Ok (List.map (paint cs) (List.map fst (fst found)),
           paint cs (snd found), b)
  else Unmodelled.

Definition pieces (options : value) : list str :=
  match frames options with Ok (ps, _, _) => ps | _ => [] end.

Definition ending (options : value) : str :=
  match frames options with Ok (_, tail, _) => tail | _ => [] end.

(** A random source whose every draw is 0. *)
Definition zeroDraws : rng := fun _ => mkUnit 0 53 eq_refl.

(** Glyphs free of the escape character and of the marker letters. *)
Definition plainGlyph (c : str) : bool :=
  avoids (ESC :: lit "ygb") c.

(** The glyph strings of the yellow pass. *)
Definition glyphs (options : obj) : result (list str) :=
  ys <- yellowChars options ;; stringsOf ys.

(** The colouring passes as a list of (pattern, replacement) pairs. *)
Definition passes (ys : list str) : list (str * str) :=
  List.map (fun c => (lit "y" ++ c, formatStr yellow c)) ys ++
  List.map (fun c => (lit "g" ++ c, formatStr green c)) greenStrs ++
  List.map (fun c => (lit "b" ++ c, formatStr brown c)) brownStrs.

Definition step (acc : str) (pr : str * str) : str :=
  splitJoin acc (fst pr) (snd pr).

Definition markers : str := lit "ygb".

(** A pattern that starts with a marker letter and has no escape
    character; a replacement that starts with the escape character and has
    no marker letter. *)
Definition patternOK (p : str) : bool :=
  match p with
  | h :: _ => member h markers && negb (member ESC p)
  | [] => false
  end.

Definition replacementOK (r : str) : bool :=
  match r with
  | e :: _ => N.eqb e ESC && avoids markers r
  | [] => false
  end.

Definition passOK (pr : str * str) : bool :=
  patternOK (fst pr) && replacementOK (snd pr).

(** At every position of [s], [p] matches or [q] does not. *)
Fixpoint quiet (p q s : str) : bool :=
  (isPrefix p s || negb (isPrefix q s)) &&
  match s with [] => true | _ :: s' => quiet p q s' end.

(** ** Configurations used in the statements *)

Definition ballsConfig (v : value) : value :=
  VObject [ (lit "balls", v) ].

Definition starConfig (bottom : str) : value :=
  VObject [ (lit "star",
             VObject [ (lit "TOP", VString (lit "|"));
                       (lit "TREE_STAR", VString (lit "+"));
                       (lit "LEFT", VString (lit "-"));
                       (lit "RIGHT", VString (lit "-"));
                       (lit "BOTTOM", VString bottom) ]) ].

Definition escapeStarConfig : value :=
  VObject [ (lit "star",
             VObject [ (lit "TOP", VString [ESC]);
                       (lit "STAR", VString (lit "y")) ]) ].

Definition partialStar : value :=
  VObject [ (lit "TOP", VString (lit "^")) ].

(** The largest number below 1 that [Math.random] can return. *)
Definition largestDraw : unitDouble := mkUnit (2 ^ 53 - 1) 53 eq_refl.

(** The values validation lets through: a string, null, or an object (not
    an array) whose own values are all strings. *)
Definition accepted (v : value) : bool :=
  match v with
  | VString _ => true
  | VNull => true
  | VObject o => forallb (fun kv => isString (snd kv)) (ownProps o)
  | _ => false
  end.

(** The options object that [mergeOptions] validates. *)
Definition mergedOf (options : value) : obj :=
  mergedOptions (match options with VUndefined => VObject [] | v => v end).


(** ** A one-character ball glyph *)

(** Characters with a role in the pattern syntax, as [parseTerms] reads
    them. *)
Definition syntaxChar (c : N) : bool :=
  member c [chRParen; chLParen; chBackslash; chStar; chPlus; chQuestion]
  || unmodelledChar c.

(** The regular expression of the pattern [(\d+)c?] for a character [c]
    without a syntactic role. *)
Definition lightsRegex (c : N) : regex :=
  Cat (Grp (Cat (Quant Dig 1 None true) Eps))
      (Cat (Quant (Chr c) 0 (Some 1) true) Eps).

(** The loop of a quantifier, as in [rmatch], under a name. *)
Definition repeatLoop (body : regex) (greedy : bool) (k : str -> mres)
  : nat -> nat -> option nat -> str -> mres :=
  fix rep (fuel : nat) (min : nat) (max : option nat) (s : str)
      {struct fuel} : mres :=
    match fuel with
    | O => MStuck
    | S fuel' =>
      match max with
      | Some O => k s
      | _ =>
        let iter (_ : unit) :=
          rmatch body s (fun s' =>
            if Nat.eqb min 0 && Nat.eqb (List.length s') (List.length s)
            then MFail
            else rep fuel' (Nat.pred min) (predMax max) s') in
        if negb (Nat.eqb min 0) then iter tt
        else if greedy then orElse (iter tt) (fun _ => k s)
        else orElse (k s) iter
      end
    end.

(** The longest prefix of digits, and what follows it. *)
Fixpoint spanDigits (s : str) : str * str :=
  match s with
  | x :: s' =>
    if isDigit x
    then (x :: fst (spanDigits s'), snd (spanDigits s'))
    else ([], s)
  | [] => ([], [])
  end.

(** Drop a leading [c], if there is one. *)
Definition optChar (c : N) (s : str) : str :=
  match s with
  | x :: s' => if N.eqb x c then s' else s
  | [] => []
  end.

Definition noDigit (s : str) : bool :=
  forallb (fun x => negb (isDigit x)) s.

(** A run of one or more digits, alone or followed by one [c]. *)
Definition isRun (c : N) (m : str) : bool :=
  match spanDigits m with
  | (ds, rest) =>
    negb (Nat.eqb (List.length ds) 0) && (str_eqb rest [] || str_eqb rest [c])
  end.

(** The match of [(\d+)c?] at the start of a text, read off directly: a
    run of digits and, when it comes next, one [c]. *)
Definition runAt (c : N) (s : str) : option str :=
  match s with
  | x :: s' =>
    if isDigit x
    then Some (x :: fst (spanDigits s') ++
               match snd (spanDigits s') with
               | y :: _ => if N.eqb y c then [c] else []
               | [] => []
               end)
    else None
  | [] => None
  end.

Definition isNull (v : value) : bool :=
  match v with VNull => true | _ => false end.

(** An object with an own [toString] property. *)
Definition ownToString (v : value) : bool :=
  match v with
  | VObject o =>
    match getProp o (lit "toString") with Some _ => true | None => false end
  | _ => false
  end.

(** The texts matched by the lights pattern in the substituted template,
    in order. *)
Definition lightRuns (options : value) : result (list str) :=
  opts <- mergeOptions options ;;
  text <- substituted opts ;;
  found <- lightMatches opts text ;;
  Ok (List.map snd (fst found)).

(** ** Marker letters left in a text *)

Definition isMarker (x : N) : bool := member x markers.

Definition escapeFree (c : str) : bool := negb (member ESC c).

(** Number of positions of [s] that hold a marker letter at which none of
    the patterns [ps] starts: the marker letters not followed by a glyph
    of their category. *)
Fixpoint strayMarkers (ps : list str) (s : str) : nat :=
  (match s with
   | x :: _ =>
     if isMarker x && negb (existsb (fun p => isPrefix p s) ps) then 1 else 0
   | [] => 0
   end) +
  match s with [] => 0 | _ :: s' => strayMarkers ps s' end.

(** Number of marker letters in a text. *)
Definition markerCount (s : str) : nat := strayMarkers [] s.

(** A pass whose pattern is a marker letter followed by a glyph without
    marker letters. *)
Definition cleanPass (pr : str * str) : bool :=
  passOK pr && avoids markers (tl (fst pr)).

(** The colouring passes by marker, colour and glyph. *)
Definition glyphPasses (cs : list str) : list (N * Color * str) :=
  List.map (fun c => (121%N, yellow, c)) cs ++
  List.map (fun c => (103%N, green, c)) greenStrs ++
  List.map (fun c => (98%N, brown, c)) brownStrs.

Definition passOf (t : N * Color * str) : str * str :=
  (fst (fst t) :: snd t, formatStr (snd (fst t)) (snd t)).

Definition escapeFreePass (t : N * Color * str) : bool :=
  isMarker (fst (fst t)) && escapeFree (snd t).

Definition cleanPattern (q : str) : bool :=
  patternOK q && avoids markers (tl q).

(** The tree returned for [stars = "5"] when every draw is 0. *)
Definition digitStarTree : str :=
  match ctree (VObject [ (lit "stars", VString (lit "5")) ]) zeroDraws with
  | Ok out => out
  | _ => []
  end.

(** At the place of every match, the longest run of digits with the ball
    glyph that may follow it is the match itself. *)
Fixpoint greedyRuns (c : N) (ms : list (str * str)) (tail : str) : bool :=
  match ms with
  | [] => true
  | (_, m) :: ms' =>
    match runAt c (m ++ List.concat
                          (List.map (fun x => fst x ++ snd x) ms') ++ tail) with
    | Some m' => str_eqb m' m
    | None => false
    end && greedyRuns c ms' tail
  end.

(** * Properties *)

(** ** Scanning lemmas for [split], [join] and [includes] *)

Lemma join_cons (x : str) (rest : list str) (sep : str) :
  rest <> [] -> join (x :: rest) sep = x ++ sep ++ join rest sep.
Proof. destruct rest; [congruence | reflexivity]. Qed.

Lemma splitGo_nonempty (sep s : str) (skip : nat) (cur : str) :
  splitGo sep s skip cur <> [].
Proof.
  revert skip cur. induction s as [|c s IH]; intros skip cur; simpl.
  - discriminate.
  - destruct skip; [destruct (isPrefix sep (c :: s))|]; try discriminate; apply IH.
Qed.

Lemma join_splitGo (sep r s : str) (skip : nat) (cur : str) :
  join (splitGo sep s skip cur) r = rev cur ++ replScan sep r s skip.
Proof.
  revert skip cur. induction s as [|c s IH]; intros skip cur; simpl.
  - now rewrite app_nil_r.
  - destruct skip as [|k]; [|apply IH].
    destruct (isPrefix sep (c :: s)).
    + rewrite join_cons by apply splitGo_nonempty. now rewrite IH.
    + rewrite IH. simpl. now rewrite <- app_assoc.
Qed.

Lemma splitJoin_scan (s p r : str) :
  p <> [] -> splitJoin s p r = replScan p r s 0.
Proof.
  intros Hp. unfold splitJoin, split. destruct p as [|h p']; [congruence|].
  now rewrite join_splitGo.
Qed.

Lemma isPrefix_length (p s : str) :
  isPrefix p s = true -> List.length p <= List.length s.
Proof.
  revert s. induction p as [|x p IH]; intros [|y s]; simpl; try lia; try discriminate.
  intros H. apply andb_true_iff in H. destruct H as [_ H]. apply IH in H. lia.
Qed.

Section Alphabet.

Variable A : str.      (* code units of the inserted strings *)
Variable p : str.      (* the pattern searched *)
Hypothesis p_nonempty : p <> [].
Hypothesis p_avoids : avoids A p = true.

Lemma avoids_neq (h c : N) (q : str) :
  avoids A (h :: q) = true -> member c A = true -> N.eqb h c = false.
Proof.
  simpl. intros H Hc. apply andb_true_iff in H. destruct H as [H _].
  destruct (N.eqb_spec h c) as [->|]; [|reflexivity].
  rewrite Hc in H. discriminate.
Qed.

Lemma isPrefix_head_false (c : N) (rest : str) :
  member c A = true -> isPrefix p (c :: rest) = false.
Proof.
  intros Hc. destruct p as [|h q]; [congruence|]. simpl.
  now rewrite (avoids_neq _ _ _ p_avoids Hc).
Qed.

Lemma isPrefix_app_light (q x : str) (c : N) (rest : str) :
  avoids A q = true -> member c A = true ->
  isPrefix q (x ++ c :: rest) = isPrefix q x.
Proof.
  revert q. induction x as [|y x IH]; intros [|h q] Hq Hc; simpl; try reflexivity.
  - now rewrite (avoids_neq _ _ _ Hq Hc).
  - f_equal. apply IH; [|assumption]. simpl in Hq.
    apply andb_true_iff in Hq. tauto.
Qed.

Lemma replScan_light (r l rest : str) :
  within A l = true ->
  replScan p r (l ++ rest) 0 = l ++ replScan p r rest 0.
Proof.
  induction l as [|c l IH]; intros Hl; [reflexivity|].
  simpl in Hl. apply andb_true_iff in Hl. destruct Hl as [Hc Hl].
  change ((c :: l) ++ rest) with (c :: (l ++ rest)).
  cbn [replScan]. rewrite (isPrefix_head_false _ _ Hc). simpl. now rewrite IH.
Qed.

Lemma replScan_seg (r x l rest : str) (skip : nat) :
  l <> [] -> within A l = true -> skip <= List.length x ->
  replScan p r (x ++ l ++ rest) skip =
  replScan p r x skip ++ l ++ replScan p r rest 0.
Proof.
  intros Hne Hl. revert skip.
  induction x as [|y x IH]; intros skip Hskip.
  - simpl in Hskip. replace skip with 0 by lia. simpl.
    now apply replScan_light.
  - change ((y :: x) ++ l ++ rest) with (y :: (x ++ l ++ rest)).
    cbn [replScan]. destruct skip as [|k].
    + destruct l as [|c l']; [congruence|].
      change (y :: x ++ (c :: l') ++ rest)
        with ((y :: x) ++ c :: (l' ++ rest)).
      rewrite isPrefix_app_light; try assumption;
        [|simpl in Hl; apply andb_true_iff in Hl; tauto].
      change ((y :: x) ++ c :: l' ++ rest)
        with (y :: x ++ (c :: l') ++ rest).
      destruct (isPrefix p (y :: x)) eqn:E.
      * apply isPrefix_length in E. simpl in E.
        rewrite IH by lia. now rewrite app_assoc.
      * rewrite IH by lia. reflexivity.
    + simpl in Hskip. apply IH. lia.
Qed.

Lemma splitJoin_weave (r : str) (segs ls : list str) (tail : str) :
  Forall (fun l => l <> [] /\ within A l = true) ls ->
  splitJoin (weave segs ls tail) p r =
  weave (List.map (fun x => splitJoin x p r) segs) ls (splitJoin tail p r).
Proof.
  intros Hls. revert segs.
  induction Hls as [|l ls [Hne Hl] Hls IH]; intros [|x segs]; simpl; try reflexivity.
  rewrite <- IH. rewrite !splitJoin_scan by assumption.
  apply replScan_seg; auto with arith.
Qed.

Lemma includes_light (l rest : str) :
  within A l = true -> includes (l ++ rest) p = includes rest p.
Proof.
  induction l as [|c l IH]; intros Hl; [reflexivity|].
  simpl in Hl. apply andb_true_iff in Hl. destruct Hl as [Hc Hl].
  change ((c :: l) ++ rest) with (c :: (l ++ rest)).
  cbn [includes]. now rewrite (isPrefix_head_false _ _ Hc), IH.
Qed.

Lemma includes_seg (x l rest : str) :
  l <> [] -> within A l = true ->
  includes (x ++ l ++ rest) p = includes x p || includes rest p.
Proof.
  intros Hne Hl. induction x as [|y x IH].
  - simpl. rewrite includes_light by assumption.
    destruct p; [congruence | reflexivity].
  - change ((y :: x) ++ l ++ rest) with (y :: (x ++ l ++ rest)).
    cbn [includes]. rewrite IH.
    destruct l as [|c l']; [congruence|].
    change (y :: x ++ (c :: l') ++ rest)
      with ((y :: x) ++ c :: (l' ++ rest)).
    rewrite isPrefix_app_light; try assumption;
      [|simpl in Hl; apply andb_true_iff in Hl; tauto].
    now rewrite orb_assoc.
Qed.

Lemma includes_weave (segs ls : list str) (tail : str) :
  Forall (fun l => l <> [] /\ within A l = true) ls ->
  List.length segs = List.length ls ->
  includes (weave segs ls tail) p =
  existsb (fun x => includes x p) segs || includes tail p.
Proof.
  intros Hls. revert segs.
  induction Hls as [|l ls [Hne Hl] Hls IH]; intros [|x segs] Hlen;
    simpl in *; try discriminate; try reflexivity.
  rewrite includes_seg by assumption. rewrite IH by lia.
  now rewrite orb_assoc.
Qed.

End Alphabet.

(** ** The coloured lights and the text around them *)

Lemma selectColor_cases (z : Z) : In (selectColor z) (palette ++ [white]).
Proof.
  destruct z as [|q|q]; [| |]; try (cbv; auto 10).
  destruct q as [[q|q|]|[q|q|]|]; try destruct q; cbv; auto 10.
Qed.

Lemma member_app (c : N) (x y : str) :
  member c (x ++ y) = member c x || member c y.
Proof. apply existsb_app. Qed.

Lemma within_app (A x y : str) :
  within A (x ++ y) = within A x && within A y.
Proof. apply forallb_app. Qed.

Lemma within_weaken (X b s : str) :
  within X s = true -> within (X ++ b) s = true.
Proof.
  unfold within. rewrite !forallb_forall. intros H c Hc.
  rewrite member_app, (H c Hc). reflexivity.
Qed.

Lemma within_self (X b : str) : within (X ++ b) b = true.
Proof.
  unfold within. rewrite forallb_forall. intros c Hc.
  rewrite member_app. apply orb_true_iff. right.
  apply existsb_exists. exists c. split; [assumption | apply N.eqb_refl].
Qed.

Lemma formatStr_within (c : Color) (b : str) :
  In c (palette ++ [white]) ->
  within (lightAlphabet b) (formatStr c b) = true.
Proof.
  intros Hc.
  assert (Ha : within (lightAlphabet []) (toAnsi c) = true).
  { cbv [palette app In] in Hc.
    repeat (destruct Hc as [<-|Hc]; [vm_compute; reflexivity|]).
    contradiction. }
  assert (Hr : within (lightAlphabet []) reset = true) by reflexivity.
  unfold formatStr.
  change (lightAlphabet b) with (lightAlphabet [] ++ b).
  rewrite (within_app _ (toAnsi c)), (within_app _ b).
  rewrite (within_weaken _ b _ Ha), (within_weaken _ b _ Hr), within_self.
  reflexivity.
Qed.

Lemma lights_spec (b : str) (rnd : rng) (n i : nat) :
  Forall (fun l => l <> [] /\ within (lightAlphabet b) l = true)
         (lights b rnd i n).
Proof.
  revert i. induction n as [|n IH]; intros i; simpl; constructor; [|apply IH].
  split; [discriminate|]. apply formatStr_within, selectColor_cases.
Qed.

Lemma lights_length (b : str) (rnd : rng) (n i : nat) :
  List.length (lights b rnd i n) = n.
Proof. revert i. induction n; intros; simpl; auto. Qed.

Lemma lights_nth (b : str) (rnd : rng) (n i j : nat) :
  j < n ->
  nth j (lights b rnd i n) [] =
  formatStr (selectColor (getRandomInt 6 (rnd (i + j)))) b.
Proof.
  revert i j. induction n as [|n IH]; intros i [|j] Hj; simpl; try lia.
  - now rewrite Nat.add_0_r.
  - rewrite IH by lia. do 4 f_equal. lia.
Qed.

Lemma replaceMatches_weave (balls : value) (b : str) (rnd : rng)
    (ms : list (str * str)) (tail : str) (i : nat) :
  toStringV balls = Ok b ->
  replaceMatches balls rnd i ms tail =
  Ok (weave (List.map fst ms) (lights b rnd i (List.length ms)) tail).
Proof.
  intros Hb. revert i. induction ms as [|[before m] ms IH]; intros i; simpl.
  - reflexivity.
  - unfold generateColor, format. rewrite Hb. simpl. now rewrite IH.
Qed.

Lemma applyColorToChars_strings (chars : list value) (cs : list str)
    (applied : str) (color : Color) (charPrefix : str) :
  stringsOf chars = Ok cs ->
  applyColorToChars applied color charPrefix chars =
  Ok (colorChars applied color charPrefix cs).
Proof.
  revert cs applied. induction chars as [|v chars IH]; intros cs applied H; simpl in *.
  - now inversion H.
  - unfold format. destruct (toStringV v) as [c| |]; simpl in *; try discriminate.
    destruct (stringsOf chars) as [more| |]; simpl in *; try discriminate.
    inversion H; subst. rewrite (IH more) by reflexivity. reflexivity.
Qed.

Lemma colorChars_weave (A : str) (color : Color) (charPrefix : str)
    (cs : list str) (segs ls : list str) (tail : str) :
  charPrefix <> [] ->
  forallb (fun c => avoids A (charPrefix ++ c)) cs = true ->
  Forall (fun l => l <> [] /\ within A l = true) ls ->
  colorChars (weave segs ls tail) color charPrefix cs =
  weave (List.map (fun x => colorChars x color charPrefix cs) segs) ls
        (colorChars tail color charPrefix cs).
Proof.
  intros Hp Hcs Hls. revert segs tail.
  induction cs as [|c cs IH]; intros segs tail; unfold colorChars in *; simpl.
  - now rewrite map_id.
  - simpl in Hcs. apply andb_true_iff in Hcs. destruct Hcs as [Hc Hcs].
    rewrite (splitJoin_weave A) by
      (first [assumption | destruct charPrefix; [congruence | discriminate]]).
    rewrite (IH Hcs). now rewrite map_map.
Qed.

Lemma forallb_mapped {X Y} (f : X -> Y) (q : Y -> bool) (l : list X) :
  forallb q (List.map f l) = forallb (fun x => q (f x)) l.
Proof. induction l as [|x l IH]; simpl; [reflexivity | now rewrite IH]. Qed.

Lemma paint_weave (A : str) (ys : list str) (segs ls : list str) (tail : str) :
  paintable A ys = true ->
  Forall (fun l => l <> [] /\ within A l = true) ls ->
  paint ys (weave segs ls tail) =
  weave (List.map (paint ys) segs) ls (paint ys tail).
Proof.
  unfold paintable, markerPatterns.
  rewrite !forallb_app, !forallb_mapped.
  intros H Hls. apply andb_true_iff in H. destruct H as [Hy H].
  apply andb_true_iff in H. destruct H as [Hg Hb].
  unfold paint.
  rewrite !(colorChars_weave A) by (try assumption; discriminate).
  now rewrite !map_map.
Qed.

Lemma ctree_weave (options : value) (rnd : rng) (opts : obj) (text : str)
    (ms : list (str * str)) (tail b : str) (ys : list value) (cs : list str) :
  mergeOptions options = Ok opts ->
  substituted opts = Ok text ->
  lightMatches opts text = Ok (ms, tail) ->
  toStringV (getV opts (lit "balls")) = Ok b ->
  yellowChars opts = Ok ys ->
  stringsOf ys = Ok cs ->
  paintable (lightAlphabet b) cs = true ->
  ctree options rnd =
  Ok (weave (List.map (paint cs) (List.map fst ms))
            (lights b rnd 0 (List.length ms)) (paint cs tail)).
Proof.
  intros Hm Hs Hl Hb Hy Hc Hp.
  unfold ctree. rewrite Hm. cbn [bind]. rewrite Hs. cbn [bind].
  unfold applyColorsToLights. rewrite Hl. cbn [bind fst snd].
  rewrite (replaceMatches_weave _ b) by assumption. cbn [bind].
  unfold applyColors. rewrite Hy. cbn [bind].
  rewrite (applyColorToChars_strings ys cs) by assumption. cbn [bind].
  rewrite (applyColorToChars_strings greenChars greenStrs) by reflexivity.
  cbn [bind].
  rewrite (applyColorToChars_strings brownChars brownStrs) by reflexivity.
  f_equal. apply (paint_weave (lightAlphabet b)); [assumption|].
  apply lights_spec.
Qed.

(** ** Rounding and the random draw *)

Lemma roundShift_bounds (n sh : Z) :
  (0 <= n)%Z -> (0 < sh)%Z ->
  (0 <= roundShift n sh <= n + 2 ^ (sh - 1))%Z.
Proof.
  intros Hn Hsh. unfold roundShift.
  rewrite !Z.shiftl_mul_pow2, Z.shiftr_div_pow2 by lia.
  rewrite Z.mul_1_l.
  assert (Hpow : (2 ^ sh = 2 * 2 ^ (sh - 1))%Z).
  { rewrite <- Z.pow_succ_r by lia. f_equal. lia. }
  assert (Hhalf : (0 < 2 ^ (sh - 1))%Z) by (apply Z.pow_pos_nonneg; lia).
  pose proof (Z.div_mod n (2 ^ sh) ltac:(lia)) as Hdm.
  pose proof (Z.mod_pos_bound n (2 ^ sh) ltac:(lia)) as Hmod.
  assert (Hq : (0 <= n / 2 ^ sh)%Z) by (apply Z.div_pos; lia).
  set (q := (n / 2 ^ sh)%Z) in *. set (h := (2 ^ (sh - 1))%Z) in *.
  set (m := (n mod 2 ^ sh)%Z) in *.
  assert (Hqm : (q * 2 ^ sh = n - m)%Z) by lia.
  rewrite Hpow in *.
  destruct (n - q * (2 * h) <? h)%Z eqn:E1;
    [apply Z.ltb_lt in E1; nia|apply Z.ltb_ge in E1].
  destruct (h <? n - q * (2 * h))%Z eqn:E2;
    [apply Z.ltb_lt in E2; nia|apply Z.ltb_ge in E2].
  destruct (Z.even q); nia.
Qed.

Lemma round53_bounds (n : Z) :
  (0 <= n <= 6 * 2 ^ 53 - 6)%Z -> (0 <= round53 n < 6 * 2 ^ 53)%Z.
Proof.
  intros Hn. unfold round53.
  destruct (Z.log2 n - 52 <=? 0)%Z eqn:E;
    [lia | apply Z.leb_gt in E].
  assert (Hlog : (Z.log2 n < 56)%Z).
  { apply Z.log2_lt_pow2; [|lia].
    destruct (Z.eq_dec n 0) as [->|]; [simpl in E; lia | lia]. }
  pose proof (roundShift_bounds n (Z.log2 n - 52) ltac:(lia) ltac:(lia)) as Hb.
  assert (Hp : (2 ^ (Z.log2 n - 52 - 1) <= 2 ^ 2)%Z)
    by (apply Z.pow_le_mono_r; lia).
  change (2 ^ 2)%Z with 4%Z in Hp. lia.
Qed.

Lemma getRandomInt_range (u : unitDouble) :
  (0 <= getRandomInt 6 u < 6)%Z.
Proof.
  destruct u as [m e Hr]. unfold getRandomInt. cbn [mant expo].
  unfold unitRange in Hr.
  repeat (apply andb_true_iff in Hr; destruct Hr as [Hr ?]).
  apply Z.leb_le in Hr.
  repeat match goal with
         | H : (_ <=? _)%Z = true |- _ => apply Z.leb_le in H
         | H : (_ <? _)%Z = true |- _ => apply Z.ltb_lt in H
         end.
  pose proof (round53_bounds (6 * m) ltac:(lia)) as Hb.
  assert (Hpow : (2 ^ 53 <= 2 ^ e)%Z) by (apply Z.pow_le_mono_r; lia).
  rewrite Z.shiftr_div_pow2 by lia.
  split.
  - apply Z.div_pos; lia.
  - apply Z.div_lt_upper_bound; lia.
Qed.

Lemma selectColor_palette (u : unitDouble) :
  In (selectColor (getRandomInt 6 u)) palette /\
  selectColor (getRandomInt 6 u) <> white.
Proof.
  pose proof (getRandomInt_range u) as Hr.
  set (z := getRandomInt 6 u) in *.
  assert (Hz : (z = 0 \/ z = 1 \/ z = 2 \/ z = 3 \/ z = 4 \/ z = 5)%Z)
    by lia.
  clearbody z.
  destruct Hz as [H|[H|[H|[H|[H|H]]]]]; subst z;
    (split; [cbv; auto 10 | discriminate]).
Qed.

Lemma lights_palette (b : str) (rnd : rng) (n i : nat) :
  Forall (fun l => exists c, In c palette /\ l = formatStr c b)
         (lights b rnd i n).
Proof.
  revert i. induction n as [|n IH]; intros i; simpl; constructor; [|apply IH].
  exists (selectColor (getRandomInt 6 (rnd i))). split; [|reflexivity].
  apply selectColor_palette.
Qed.

(** ** Property tables: lookup, update, enumeration order *)

Lemma str_eqb_refl (k : str) : str_eqb k k = true.
Proof. now apply str_eqb_eq. Qed.

Lemma str_eqb_neq (a b : str) : str_eqb a b = false <-> a <> b.
Proof.
  rewrite <- str_eqb_eq. destruct (str_eqb a b); split; congruence.
Qed.

Lemma uniqueKeys_NoDup (o : obj) :
  uniqueKeys o = true -> NoDup (List.map fst o).
Proof.
  induction o as [|[k v] o IH]; simpl; intros H; constructor.
  - apply andb_true_iff in H. destruct H as [H _].
    apply negb_true_iff in H. intros Hin. apply in_map_iff in Hin.
    destruct Hin as [[k' v'] [Hk Hin]]. simpl in Hk. subst k'.
    assert (E : existsb (fun kv => str_eqb (fst kv) k) o = true).
    { apply existsb_exists. exists (k, v'). split; [assumption|].
      apply str_eqb_refl. }
    congruence.
  - apply IH. apply andb_true_iff in H. tauto.
Qed.

Lemma getProp_None (o : obj) (k : str) :
  getProp o k = None <-> ~ In k (List.map fst o).
Proof.
  induction o as [|[k' v] o IH]; simpl; [tauto|].
  destruct (str_eqb k' k) eqn:E.
  - apply str_eqb_eq in E. split; [discriminate | tauto].
  - apply str_eqb_neq in E. rewrite IH. tauto.
Qed.

Lemma getProp_In (o : obj) (k : str) (v : value) :
  NoDup (List.map fst o) -> (getProp o k = Some v <-> In (k, v) o).
Proof.
  induction o as [|[k' v'] o IH]; simpl; intros Hnd.
  - split; [discriminate | tauto].
  - inversion Hnd as [|? ? Hnotin Hnd']; subst.
    destruct (str_eqb k' k) eqn:E.
    + apply str_eqb_eq in E. subst k'. split.
      * intros H; inversion H; auto.
      * intros [H|H]; [inversion H; auto|].
        exfalso. apply Hnotin. apply in_map_iff. now exists (k, v).
    + apply str_eqb_neq in E. rewrite (IH Hnd'). split; [auto|].
      intros [H|H]; [inversion H; congruence | assumption].
Qed.

Lemma getProp_perm (o1 o2 : obj) (k : str) :
  Permutation o1 o2 -> NoDup (List.map fst o1) ->
  getProp o1 k = getProp o2 k.
Proof.
  intros Hp Hnd.
  assert (Hnd2 : NoDup (List.map fst o2)).
  { eapply Permutation_NoDup; [|exact Hnd]. now apply Permutation_map. }
  destruct (getProp o2 k) as [v|] eqn:E.
  - apply (getProp_In _ _ _ Hnd). apply (getProp_In _ _ _ Hnd2) in E.
    eapply Permutation_in; [symmetry; exact Hp | exact E].
  - apply getProp_None. apply getProp_None in E. intros Hin. apply E.
    eapply Permutation_in; [|exact Hin]. now apply Permutation_map.
Qed.

Lemma insertIndexed_perm e l : Permutation (insertIndexed e l) (e :: l).
Proof.
  induction l as [|e' l IH]; simpl; [reflexivity|].
  destruct (fst e <? fst e')%N; [reflexivity|].
  rewrite IH. apply perm_swap.
Qed.

Lemma ownProps_perm (o : obj) : Permutation (ownProps o) o.
Proof.
  unfold ownProps, namedProps.
  induction o as [|[k v] o IH]; simpl; [reflexivity|].
  destruct (arrayIndex k) as [n|]; simpl.
  - rewrite (Permutation_map snd (insertIndexed_perm (n, (k, v)) _)).
    simpl. now constructor.
  - rewrite <- Permutation_middle. now constructor.
Qed.

Lemma getProp_setProp (o : obj) (k k' : str) (v : value) :
  getProp (setProp o k v) k' =
  if str_eqb k k' then Some v else getProp o k'.
Proof.
  induction o as [|[k0 v0] o IH]; simpl.
  - reflexivity.
  - destruct (str_eqb k0 k) eqn:E; simpl.
    + apply str_eqb_eq in E. subst k0. now destruct (str_eqb k k').
    + rewrite IH. destruct (str_eqb k0 k') eqn:E'; [|reflexivity].
      apply str_eqb_eq in E'. subst k0. apply str_eqb_neq in E.
      assert (E' : str_eqb k k' = false) by (apply str_eqb_neq; congruence).
      now rewrite E'.
Qed.

Lemma getProp_spread (l target : obj) (k : str) :
  NoDup (List.map fst l) ->
  getProp (fold_left (fun o kv => setProp o (fst kv) (snd kv)) l target) k =
  match getProp l k with
  | Some v => Some v
  | None => getProp target k
  end.
Proof.
  revert target. induction l as [|[k0 v0] l IH]; intros target Hnd; simpl.
  - reflexivity.
  - inversion Hnd as [|? ? Hnotin Hnd']; subst.
    rewrite (IH _ Hnd'), getProp_setProp.
    destruct (str_eqb k0 k) eqn:E; [|reflexivity].
    apply str_eqb_eq in E. subst k0.
    apply getProp_None in Hnotin. now rewrite Hnotin.
Qed.

Lemma mergedOptions_lookup (newOptions : obj) (k : str) :
  uniqueKeys newOptions = true ->
  getProp (mergedOptions (VObject newOptions)) k =
  match getProp newOptions k with
  | Some v => Some v
  | None => getProp defaultOptions k
  end.
Proof.
  intros Hu. apply uniqueKeys_NoDup in Hu.
  assert (Hnd : NoDup (List.map fst (ownProps newOptions))).
  { eapply Permutation_NoDup; [|exact Hu].
    apply Permutation_map. symmetry. apply ownProps_perm. }
  unfold mergedOptions, spreadInto at 1. cbn [enumerable].
  rewrite (getProp_spread _ _ _ Hnd).
  rewrite (getProp_perm _ _ k (ownProps_perm newOptions) Hnd).
  reflexivity.
Qed.

Lemma mergeOptions_returns (newOptions : value) (merged : obj) :
  mergeOptions newOptions = Ok merged ->
  merged = mergedOptions
             (match newOptions with VUndefined => VObject [] | v => v end).
Proof.
  unfold mergeOptions.
  destruct (validateOptions _) as [[]| |]; simpl; congruence.
Qed.

(** ** Option merging *)

(** C3. Option merging overlays the caller's top-level keys on the built-in
    defaults: with no options the result is the default object; for every
    caller object, every key of the merged object has the caller's value
    when the caller supplied that key and the default value otherwise, and
    a successful [mergeOptions] returns that merged object.  In particular
    a caller's [star] value, however partial, is the merged [star] value as
    it stands: no field of the default [star] is filled in. *)
Theorem C3_shallow_merge (newOptions : obj) :
  uniqueKeys newOptions = true ->
  mergeOptions VUndefined
  = Ok [ (lit "star",
          VObject [ (lit "TOP", VString (lit "|"));
                    (lit "TREE_STAR", VString (lit "+"));
                    (lit "LEFT", VString (lit "-"));
                    (lit "RIGHT", VString (lit "-"));
                    (lit "BOTTOM", VString (lit "A")) ]);
         (lit "balls", VString (lit "O"));
         (lit "stars", VString (lit "*")) ] /\
  (forall k, getProp (mergedOptions (VObject newOptions)) k =
             match getProp newOptions k with
             | Some v => Some v
             | None => getProp defaultOptions k
             end) /\
  (forall merged k,
      mergeOptions (VObject newOptions) = Ok merged ->
      getProp merged k =
      match getProp newOptions k with
      | Some v => Some v
      | None => getProp defaultOptions k
      end) /\
  (forall star,
      getProp newOptions (lit "star") = Some star ->
      getProp (mergedOptions (VObject newOptions)) (lit "star") = Some star /\
      forall merged, mergeOptions (VObject newOptions) = Ok merged ->
                     getV merged (lit "star") = star).
Proof.
  intros Hu.
  split; [reflexivity|]. split; [|split].
  - intros k. now apply mergedOptions_lookup.
  - intros merged k Hm. apply mergeOptions_returns in Hm. subst merged.
    now apply mergedOptions_lookup.
  - intros star Hstar.
    assert (Hs : getProp (mergedOptions (VObject newOptions)) (lit "star")
                 = Some star)
      by (rewrite mergedOptions_lookup by assumption; now rewrite Hstar).
    split; [exact Hs|].
    intros merged Hm. apply mergeOptions_returns in Hm. subst merged.
    unfold getV. now rewrite Hs.
Qed.

Lemma C3_shallow_merge_witness :
  (getProp (mergedOptions (ballsConfig (VString (lit "X")))) (lit "balls")
   = Some (VString (lit "X")) /\
   getProp (mergedOptions (ballsConfig (VString (lit "X")))) (lit "star")
   = Some (VObject defaultStar) /\
   getProp (mergedOptions (ballsConfig (VString (lit "X")))) (lit "stars")
   = Some (VString (lit "*"))) /\
  mergeOptions (VObject [ (lit "star", partialStar) ])
  = Ok [ (lit "star", partialStar);
         (lit "balls", VString (lit "O"));
         (lit "stars", VString (lit "*")) ] /\
  getProp (mergedOptions (VObject [ (lit "star", partialStar) ])) (lit "star")
  = Some partialStar.
Proof.
  pose proof (C3_shallow_merge [ (lit "balls", VString (lit "X")) ] eq_refl)
    as (_ & Hballs & _).
  pose proof (C3_shallow_merge [ (lit "star", partialStar) ] eq_refl)
    as (_ & _ & _ & Hstar).
  split; [|split; [reflexivity|]].
  - split; [exact (Hballs (lit "balls"))|].
    split; [exact (Hballs (lit "star")) | exact (Hballs (lit "stars"))].
  - exact (proj1 (Hstar partialStar eq_refl)).
Defined.

(** ** The random colour *)

(** C9. Whatever number in [0, 1) the random source returns, the drawn
    selection is an integer from 0 to 5, so the colour chosen is one of the
    six palette colours and never the white of the default branch. *)
Theorem C9_random_color_in_palette (u : unitDouble) :
  (0 <= getRandomInt 6 u < 6)%Z /\
  In (selectColor (getRandomInt 6 u)) palette /\
  selectColor (getRandomInt 6 u) <> white /\
  forall s, exists c, In c palette /\
                      generateColor u (VString s) = Ok (formatStr c s).
Proof.
  destruct (selectColor_palette u) as [Hin Hw].
  split; [apply getRandomInt_range|]. split; [exact Hin|].
  split; [exact Hw|].
  intros s. exists (selectColor (getRandomInt 6 u)). now split.
Qed.

(** ** The yellow pass *)





(** ** The returned text as lights woven into coloured text *)

Lemma ctree_frames (options : value) (P : list str) (T b : str) (n : nat) :
  frames options = Ok (P, T, b) ->
  List.length P = n ->
  forall rnd, ctree options rnd = Ok (weave P (lights b rnd 0 n) T).
Proof.
  unfold frames. intros H Hn rnd. subst n.
  destruct (mergeOptions options) as [opts| |] eqn:Em; try discriminate.
  cbn [bind] in H.
  destruct (substituted opts) as [text| |] eqn:Es; try discriminate.
  cbn [bind] in H.
  destruct (lightMatches opts text) as [[ms tail]| |] eqn:El; try discriminate.
  cbn [bind fst snd] in H.
  destruct (toStringV (getV opts (lit "balls"))) as [b'| |] eqn:Eb;
    try discriminate.
  cbn [bind] in H.
  destruct (yellowChars opts) as [ys| |] eqn:Ey; try discriminate.
  cbn [bind] in H.
  destruct (stringsOf ys) as [cs| |] eqn:Ec; try discriminate.
  cbn [bind] in H.
  destruct (paintable (lightAlphabet b') cs) eqn:Ep; try discriminate.
  inversion H; subst P T b. rewrite !length_map.
  now apply (ctree_weave options rnd opts text ms tail b' ys cs).
Qed.

(** For a closed configuration both premises are settled by evaluation. *)
Ltac framed b :=
  apply (ctree_frames _ _ _ b); vm_compute; reflexivity.

Lemma isPrefix_app_l (p x y : str) :
  isPrefix p x = true -> isPrefix p (x ++ y) = true.
Proof.
  revert x. induction p as [|a p IH]; intros [|c x]; simpl; try congruence.
  intros H. apply andb_true_iff in H. destruct H as [-> H]. now apply IH.
Qed.

Lemma includes_app_l (p x y : str) :
  includes x p = true -> includes (x ++ y) p = true.
Proof.
  induction x as [|c x IH]; simpl.
  - rewrite orb_false_r. intros H. destruct p; [|discriminate].
    destruct y; reflexivity.
  - intros H. apply orb_true_iff in H. apply orb_true_iff.
    destruct H as [H|H]; [left | right; now apply IH].
    now apply (isPrefix_app_l p (c :: x) y).
Qed.

(** ** Validation *)

(** When validation throws, the error names a key (or key path) of the
    merged object whose value is not a string, with that value's type. *)
Lemma validateSub_throw (key : str) (subs : obj) (e : error) :
  validateSub key subs = Throw e ->
  exists subKey w, In (subKey, w) subs /\ isString w = false /\
                   e = InvalidOption (subMessage key subKey w).
Proof.
  induction subs as [|[subKey w] subs IH]; simpl; [discriminate|].
  destruct w; simpl; intros H;
    try (inversion H; subst; eexists; eexists;
         split; [left; reflexivity | split; reflexivity]).
  destruct (IH H) as (k & w & Hin & Hw & He).
  exists k, w. auto.
Qed.

Lemma validateOptions_throw (props : obj) (e : error) :
  validateOptions props = Throw e ->
  exists key v, In (key, v) props /\
    ((isString v = false /\ e = InvalidOption (topMessage key v)) \/
     (exists subKey w, In (subKey, w) (forIn v) /\ isString w = false /\
                       e = InvalidOption (subMessage key subKey w))).
Proof.
  induction props as [|[key v] props IH]; simpl; [discriminate|].
  intros H.
  assert (Hrest : validateOptions props = Throw e ->
                  exists key0 v0, In (key0, v0) ((key, v) :: props) /\
    ((isString v0 = false /\ e = InvalidOption (topMessage key0 v0)) \/
     (exists subKey w, In (subKey, w) (forIn v0) /\ isString w = false /\
                       e = InvalidOption (subMessage key0 subKey w)))).
  { intros H'. destruct (IH H') as (k & w & Hin & Hc).
    exists k, w. split; [right; assumption | assumption]. }
  destruct (str_eqb (typeof v) (lit "object") && negb (isArray v)) eqn:E.
  - destruct (validateSub key (forIn v)) as [[]| |] eqn:Es; simpl in H;
      try discriminate; [now apply Hrest|].
    inversion H; subst. apply validateSub_throw in Es.
    exists key, v. split; [left; reflexivity | right; assumption].
  - destruct (negb (str_eqb (typeof v) (lit "string"))) eqn:Et;
      [|now apply Hrest].
    inversion H; subst. exists key, v. split; [left; reflexivity|].
    left. split; [|reflexivity]. destruct v; try reflexivity; discriminate.
Qed.

(** C1, at the configuration [{balls: null}]: the leaf [null] is not a
    string, yet merging returns the merged object with [balls] still null,
    no validation error is raised, and the call returns a tree. *)
Theorem C1_null_leaf_passes_validation :
  isString VNull = false /\
  mergeOptions (ballsConfig VNull)
  = Ok [ (lit "star", VObject defaultStar);
         (lit "balls", VNull);
         (lit "stars", VString (lit "*")) ] /\
  forall rnd,
    ctree (ballsConfig VNull) rnd
    = Ok (weave (pieces (ballsConfig VNull))
                (lights (lit "null") rnd 0 1)
                (ending (ballsConfig VNull))).
Proof.
  split; [reflexivity|]. split; [reflexivity|].
  framed (lit "null").
Qed.

(** ** Light positions *)

(** C2, refuted: the default configuration has sixteen light positions, not
    six; with every draw equal to 0 the returned text holds sixteen
    pink-wrapped ball glyphs. *)
Lemma C2_six_lights_refuted :
  lightPositions VUndefined <> Ok 6 /\
  exists out, ctree VUndefined zeroDraws = Ok out /\
              occurrences (formatStr pink (lit "O")) out = 16.
Proof.
  split; [vm_compute; discriminate|].
  eexists. split; vm_compute; reflexivity.
Qed.

Ltac pick_member :=
  cbn [In]; repeat (first [left; reflexivity | right]).

(** C2, amended: with the default configuration the template has sixteen
    light positions, the digit runs 10, 20, 3 (with the ball glyph after
    it), 40, 50, 60, 70, 80, 90, 100, 140, 150, 160, 170, 180 and 190; the
    returned text is the sixteen coloured pieces of [pieces] with, after
    each, the light of the corresponding draw, followed by [ending]; and
    every light is the ball glyph O between the escape sequence of one of
    the six palette colours (pink 247;108;246, light blue 85;202;255,
    purple 100;0;255, red 236;21;0, orange 243;213;0, light green
    100;255;24) and the reset sequence. *)
Theorem C2_default_sixteen_lights (rnd : rng) :
  lightPositions VUndefined = Ok 16 /\
  lightRuns VUndefined
  = Ok [ lit "10"; lit "20"; lit "3O"; lit "40"; lit "50"; lit "60"; lit "70"; lit "80"; lit "90"; lit "100"; lit "140"; lit "150"; lit "160"; lit "170"; lit "180"; lit "190" ] /\
  List.length (pieces VUndefined) = 16 /\
  ctree VUndefined rnd
  = Ok (weave (pieces VUndefined) (lights (lit "O") rnd 0 16)
              (ending VUndefined)) /\
  Forall (fun l => exists c, In c palette /\ l = formatStr c (lit "O"))
         (lights (lit "O") rnd 0 16) /\
  Forall (fun l =>
            In l [
             ESC :: lit "[38;2;247;108;246mO" ++ ESC :: lit "[0m";
             ESC :: lit "[38;2;85;202;255mO" ++ ESC :: lit "[0m";
             ESC :: lit "[38;2;100;0;255mO" ++ ESC :: lit "[0m";
             ESC :: lit "[38;2;236;21;0mO" ++ ESC :: lit "[0m";
             ESC :: lit "[38;2;243;213;0mO" ++ ESC :: lit "[0m";
             ESC :: lit "[38;2;100;255;24mO" ++ ESC :: lit "[0m" ])
         (lights (lit "O") rnd 0 16).
Proof.
  split; [vm_compute; reflexivity|]. split; [vm_compute; reflexivity|].
  split; [vm_compute; reflexivity|].
  split; [revert rnd; framed (lit "O")|].
  split; [apply lights_palette|].
  eapply Forall_impl; [|apply lights_palette].
  intros l (c & Hc & ->). cbv [palette In] in Hc.
  repeat (destruct Hc as [<-|Hc]; [pick_member|]). contradiction.
Qed.

(** The text of the lights never hides a pattern made of other code
    units: such a pattern occurs in the returned text exactly when it
    occurs in one of the pieces around the lights. *)
Lemma includes_framed (b p : str) (P : list str) (T : str) (rnd : rng)
    (n : nat) :
  p <> [] -> avoids (lightAlphabet b) p = true -> List.length P = n ->
  includes (weave P (lights b rnd 0 n) T) p =
  existsb (fun x => includes x p) P || includes T p.
Proof.
  intros Hp Ha Hn.
  apply (includes_weave (lightAlphabet b)); try assumption.
  - apply lights_spec.
  - now rewrite lights_length.
Qed.

(** ** The below-star glyph *)

(** C4, at [star.BOTTOM = "Z"] (other star fields as the defaults): the
    call returns a tree in which Z occurs nowhere, and the line below the
    star still reads [yA], marker included. *)
Theorem C4_bottom_glyph_not_displayed (rnd : rng) :
  exists out,
    ctree (starConfig (lit "Z")) rnd = Ok out /\
    includes out (lit "Z") = false /\
    includes out (10%N :: lit "         yA" ++ [10%N]) = true.
Proof.
  exists (weave (pieces (starConfig (lit "Z"))) (lights (lit "O") rnd 0 16)
                (ending (starConfig (lit "Z")))).
  split; [revert rnd; framed (lit "O")|].
  split; (rewrite includes_framed;
          [vm_compute; reflexivity | discriminate
           | vm_compute; reflexivity | vm_compute; reflexivity]).
Qed.

(** ** Light colouring *)

(** C5, at [balls = "XY"]: the lights pattern is [(\d+)XY?], which asks for
    an [X] after the digits; only the run followed by the ball text is
    replaced, and the other digit runs, such as 10, stay in the returned
    text. *)
Theorem C5_multichar_balls_miss_digit_runs (rnd : rng) :
  lightsPattern (VString (lit "XY")) = Ok (lit "(\d+)XY?") /\
  lightPositions (ballsConfig (VString (lit "XY"))) = Ok 1 /\
  exists out,
    ctree (ballsConfig (VString (lit "XY"))) rnd = Ok out /\
    includes out (lit "      10") = true.
Proof.
  split; [reflexivity|]. split; [vm_compute; reflexivity|].
  exists (weave (pieces (ballsConfig (VString (lit "XY"))))
                (lights (lit "XY") rnd 0 1)
                (ending (ballsConfig (VString (lit "XY"))))).
  split; [revert rnd; framed (lit "XY")|].
  assert (E : exists x rest, pieces (ballsConfig (VString (lit "XY"))) = x :: rest
                             /\ includes x (lit "      10") = true).
  { eexists; eexists; split; vm_compute; reflexivity. }
  destruct E as (x & rest & -> & Hx). cbn [weave lights].
  now apply includes_app_l.
Qed.

(** ** Failures after merging *)

(** C6, at [balls = "("]: every leaf is a string and merging succeeds, but
    the lights pattern [(\d+)(?] is not a regular expression, and the call
    throws a syntax error. *)
Theorem C6_regex_syntax_error (rnd : rng) :
  mergeOptions (ballsConfig (VString (lit "(")))
  = Ok [ (lit "star", VObject defaultStar);
         (lit "balls", VString (lit "("));
         (lit "stars", VString (lit "*")) ] /\
  lightsPattern (VString (lit "(")) = Ok (lit "(\d+)(?") /\
  ctree (ballsConfig (VString (lit "("))) rnd = Throw SyntaxError.
Proof. repeat split; vm_compute; reflexivity. Qed.

(** ** Marker-prefixed glyphs *)

(** C7, refuted: with [star = {TOP: ESC, STAR: "y"}] every leaf is a string
    and the call returns a text that contains the marker y followed by the
    resolved TOP glyph, and the unresolved token [yLEFT]. *)
Lemma C7_marker_glyph_remains :
  glyphs (mergedOptions escapeStarConfig) = Ok [ [ESC]; lit "y"; lit "*" ] /\
  exists out,
    ctree escapeStarConfig zeroDraws = Ok out /\
    includes out (lit "y" ++ [ESC]) = true /\
    includes out (lit "yLEFT") = true.
Proof.
  split; [reflexivity|].
  eexists. split; [|split]; vm_compute; reflexivity.
Qed.

(** ** The ball glyph *)

(** C8. With [balls = "X"] the template has sixteen light positions (the
    digit runs, the run 3 with the ball glyph X after it); the returned text
    is the coloured pieces with, after each, a light; every light is the
    glyph X between the escape sequence of one of the six palette colours
    and the reset sequence; and the text does not contain [BALL]. *)
Theorem C8_balls_X (rnd : rng) :
  lightPositions (ballsConfig (VString (lit "X"))) = Ok 16 /\
  exists out,
    ctree (ballsConfig (VString (lit "X"))) rnd = Ok out /\
    out = weave (pieces (ballsConfig (VString (lit "X"))))
                (lights (lit "X") rnd 0 16)
                (ending (ballsConfig (VString (lit "X")))) /\
    Forall (fun l => exists c, In c palette /\ l = formatStr c (lit "X"))
           (lights (lit "X") rnd 0 16) /\
    includes out (lit "BALL") = false /\
    lightRuns (ballsConfig (VString (lit "X")))
    = Ok [ lit "10"; lit "20"; lit "3X"; lit "40"; lit "50"; lit "60"; lit "70"; lit "80"; lit "90"; lit "100"; lit "140"; lit "150"; lit "160"; lit "170"; lit "180"; lit "190" ] /\
    Forall (fun l =>
              In l [
             ESC :: lit "[38;2;247;108;246mX" ++ ESC :: lit "[0m";
             ESC :: lit "[38;2;85;202;255mX" ++ ESC :: lit "[0m";
             ESC :: lit "[38;2;100;0;255mX" ++ ESC :: lit "[0m";
             ESC :: lit "[38;2;236;21;0mX" ++ ESC :: lit "[0m";
             ESC :: lit "[38;2;243;213;0mX" ++ ESC :: lit "[0m";
             ESC :: lit "[38;2;100;255;24mX" ++ ESC :: lit "[0m" ])
           (lights (lit "X") rnd 0 16).
Proof.
  split; [vm_compute; reflexivity|].
  exists (weave (pieces (ballsConfig (VString (lit "X"))))
                (lights (lit "X") rnd 0 16)
                (ending (ballsConfig (VString (lit "X"))))).
  split; [revert rnd; framed (lit "X")|].
  split; [reflexivity|]. split; [apply lights_palette|].
  split; [|split; [vm_compute; reflexivity|]].
  - rewrite includes_framed;
      [vm_compute; reflexivity | discriminate
       | vm_compute; reflexivity | vm_compute; reflexivity].
  - eapply Forall_impl; [|apply lights_palette].
    intros l (c & Hc & ->). cbv [palette In] in Hc.
    repeat (destruct Hc as [<-|Hc]; [pick_member|]). contradiction.
Qed.

(** ** What a replacement pass leaves behind *)

Lemma avoids_member (A s : str) (h : N) :
  avoids A s = true -> member h A = true -> member h s = false.
Proof.
  intros Ha Hh. destruct (member h s) eqn:E; [|reflexivity].
  apply existsb_exists in E. destruct E as [x [Hx E]].
  apply N.eqb_eq in E. subst x.
  unfold avoids in Ha. rewrite forallb_forall in Ha.
  specialize (Ha h Hx). rewrite Hh in Ha. discriminate.
Qed.

Lemma includes_skip (h : N) (q' l X : str) :
  member h l = false ->
  includes (l ++ X) (h :: q') = includes X (h :: q').
Proof.
  induction l as [|c l IH]; intros Hl; [reflexivity|].
  simpl in Hl. apply orb_false_iff in Hl. destruct Hl as [Hc Hl].
  change ((c :: l) ++ X) with (c :: (l ++ X)).
  cbn [includes isPrefix]. rewrite Hc, IH by assumption. reflexivity.
Qed.

Section Pass.

Variables (p r' : str) (e : N).
Let r := e :: r'.

Lemma isPrefix_replScan (q t : str) :
  member e q = false ->
  isPrefix q (replScan p r t 0) = true -> isPrefix q t = true.
Proof.
  revert t. induction q as [|a q IH]; intros t Hq; [reflexivity|].
  simpl in Hq. apply orb_false_iff in Hq. destruct Hq as [Hea Hq].
  destruct t as [|c t]; [simpl; congruence|].
  cbn [replScan]. destruct (isPrefix p (c :: t)).
  - unfold r. cbn [app isPrefix]. rewrite N.eqb_sym, Hea. discriminate.
  - cbn [isPrefix]. intros H. apply andb_true_iff in H.
    destruct H as [-> H]. now rewrite (IH t Hq H).
Qed.

Lemma replScan_clear (h : N) (q' s : str) (skip : nat) :
  member e (h :: q') = false -> member h r = false ->
  quiet p (h :: q') s = true ->
  includes (replScan p r s skip) (h :: q') = false.
Proof.
  intros Hq Hr. revert skip.
  induction s as [|c s IH]; intros skip Hs; [reflexivity|].
  cbn [quiet] in Hs. apply andb_true_iff in Hs. destruct Hs as [Hc Hs].
  cbn [replScan]. destruct skip as [|k]; [|now apply IH].
  destruct (isPrefix p (c :: s)) eqn:Ep.
  - rewrite includes_skip by assumption. now apply IH.
  - simpl in Hc. apply negb_true_iff in Hc.
    cbn [includes]. rewrite (IH 0 Hs), orb_false_r.
    destruct (isPrefix (h :: q') (c :: replScan p r s 0)) eqn:E;
      [|reflexivity].
    cbn [isPrefix] in E, Hc. apply andb_true_iff in E.
    destruct E as [Ehc E]. rewrite Ehc in Hc. simpl in Hc.
    apply isPrefix_replScan in E; [congruence|].
    simpl in Hq. apply orb_false_iff in Hq. tauto.
Qed.

End Pass.

Lemma quiet_self (p s : str) : quiet p p s = true.
Proof.
  induction s as [|c s IH]; cbn [quiet];
    [|rewrite IH]; now destruct (isPrefix p _).
Qed.

Lemma quiet_absent (p q s : str) :
  includes s q = false -> quiet p q s = true.
Proof.
  induction s as [|c s IH]; cbn [quiet includes]; intros H;
    apply orb_false_iff in H; destruct H as [H1 H2]; rewrite H1.
  - now rewrite orb_true_r.
  - rewrite (IH H2). now rewrite orb_true_r.
Qed.

Lemma fold_left_mapped {X Y Z} (f : Z -> Y -> Z) (g : X -> Y) (l : list X)
    (z : Z) :
  fold_left f (List.map g l) z = fold_left (fun acc x => f acc (g x)) l z.
Proof. revert z. induction l as [|x l IH]; intros z; simpl; auto. Qed.

Lemma paint_passes (cs : list str) (s : str) :
  paint cs s = fold_left step (passes cs) s.
Proof.
  unfold paint, passes, colorChars, step.
  now rewrite !fold_left_app, !fold_left_mapped.
Qed.

Lemma passes_patterns (cs : list str) :
  List.map fst (passes cs) = markerPatterns cs.
Proof.
  unfold passes, markerPatterns. now rewrite !map_app, !map_map.
Qed.

Lemma plainGlyph_pass (c : str) :
  plainGlyph c = true -> passOK (lit "y" ++ c, formatStr yellow c) = true.
Proof.
  unfold plainGlyph. intros H.
  assert (Hesc : member ESC c = false)
    by (apply (avoids_member _ _ _ H); reflexivity).
  assert (Hm : avoids markers c = true).
  { unfold avoids in *. rewrite forallb_forall in *. intros x Hx.
    specialize (H x Hx). apply negb_true_iff in H. apply negb_true_iff.
    cbn [member existsb] in H. apply orb_false_iff in H. tauto. }
  unfold passOK. cbn [fst snd]. apply andb_true_iff. split.
  - change (lit "y" ++ c) with (121%N :: c). cbn [patternOK].
    change (member ESC (121%N :: c)) with (N.eqb ESC 121 || member ESC c).
    now rewrite Hesc.
  - unfold formatStr, toAnsi. cbn [app replacementOK].
    rewrite N.eqb_refl. cbn [andb].
    change (ESC :: (lit "[38;2;" ++ decimal (r yellow) ++ lit ";" ++
                    decimal (g yellow) ++ lit ";" ++ decimal (b yellow) ++
                    lit "m") ++ c ++ reset)
      with (toAnsi yellow ++ c ++ reset).
    unfold avoids. rewrite !forallb_app. fold (avoids markers c).
    now rewrite Hm.
Qed.

Lemma passes_OK (cs : list str) :
  forallb plainGlyph cs = true -> forallb passOK (passes cs) = true.
Proof.
  intros H. unfold passes. rewrite !forallb_app, forallb_mapped.
  apply andb_true_iff. split; [|reflexivity].
  rewrite forallb_forall in *. intros c Hc. now apply plainGlyph_pass, H.
Qed.

Lemma applyColors_paint (opts : obj) (cs : list str) (base : str) :
  glyphs opts = Ok cs -> applyColors opts base = Ok (paint cs base).
Proof.
  unfold glyphs, applyColors. intros H.
  destruct (yellowChars opts) as [ys| |]; try discriminate.
  cbn [bind] in *.
  rewrite (applyColorToChars_strings ys cs) by assumption. cbn [bind].
  rewrite (applyColorToChars_strings greenChars greenStrs) by reflexivity.
  cbn [bind].
  now rewrite (applyColorToChars_strings brownChars brownStrs).
Qed.

(** * Further properties of the code *)

(** ** The random draw, for every bound *)

Lemma round53_below (n bound : Z) :
  (1 <= bound)%Z -> (0 <= n <= bound * 2 ^ 53 - bound)%Z ->
  (0 <= round53 n < bound * 2 ^ 53)%Z.
Proof.
  intros Hb Hn. unfold round53.
  destruct (Z.log2 n - 52 <=? 0)%Z eqn:E;
    [lia | apply Z.leb_gt in E].
  assert (Hpos : (0 < n)%Z).
  { destruct (Z.eq_dec n 0) as [->|]; [simpl in E; lia | lia]. }
  pose proof (Z.log2_spec n Hpos) as [Hlo _].
  pose proof (roundShift_bounds n (Z.log2 n - 52) ltac:(lia) ltac:(lia)) as Hr.
  assert (Hsplit : (2 ^ Z.log2 n = 2 ^ (Z.log2 n - 52 - 1) * 2 ^ 53)%Z).
  { rewrite <- Z.pow_add_r by lia. f_equal. lia. }
  assert (Hhalf : (0 < 2 ^ (Z.log2 n - 52 - 1))%Z)
    by (apply Z.pow_pos_nonneg; lia).
  set (h := (2 ^ (Z.log2 n - 52 - 1))%Z) in *.
  assert (Hlt : (h < bound)%Z) by nia.
  lia.
Qed.

(** [getRandomInt] keeps the promise of its documentation, "a random
    integer between 0 and max-1", for every integer bound from 1 up to
    2^53 and every number in [0, 1) that [Math.random] can return. *)
Theorem getRandomInt_below_max (max : Z) (u : unitDouble) :
  (1 <= max < 2 ^ 53)%Z -> (0 <= getRandomInt max u < max)%Z.
Proof.
  intros Hmax. destruct u as [m e Hr]. unfold getRandomInt. cbn [mant expo].
  unfold unitRange in Hr.
  repeat (apply andb_true_iff in Hr; destruct Hr as [Hr ?]).
  apply Z.leb_le in Hr.
  repeat match goal with
         | H : (_ <=? _)%Z = true |- _ => apply Z.leb_le in H
         | H : (_ <? _)%Z = true |- _ => apply Z.ltb_lt in H
         end.
  pose proof (round53_below (max * m) max ltac:(lia) ltac:(nia)) as Hb.
  assert (Hpow : (2 ^ 53 <= 2 ^ e)%Z) by (apply Z.pow_le_mono_r; lia).
  rewrite Z.shiftr_div_pow2 by lia.
  split.
  - apply Z.div_pos; lia.
  - apply Z.div_lt_upper_bound; nia.
Qed.

Lemma getRandomInt_below_max_witness :
  (0 <= getRandomInt 10 largestDraw < 10)%Z.
Proof. apply getRandomInt_below_max. lia. Defined.

(** ** Literal replacement: [s.split(p).join(r)] *)

Lemma isPrefix_skipn (p s : str) :
  isPrefix p s = true -> s = p ++ skipn (List.length p) s.
Proof.
  revert s. induction p as [|a p IH]; intros [|c s]; simpl; try congruence.
  intros H. apply andb_true_iff in H. destruct H as [Ha H].
  apply N.eqb_eq in Ha. subst c. f_equal. now apply IH.
Qed.

Lemma replScan_self (p s : str) (skip : nat) :
  p <> [] -> skip <= List.length s -> replScan p p s skip = skipn skip s.
Proof.
  intros Hp. revert skip. induction s as [|c s IH]; intros skip Hs.
  - simpl in Hs. now replace skip with 0 by lia.
  - cbn [replScan]. destruct skip as [|k]; [|simpl in Hs; apply IH; lia].
    destruct (isPrefix p (c :: s)) eqn:E.
    + pose proof (isPrefix_length _ _ E) as Hl. simpl in Hl.
      rewrite IH by lia. apply isPrefix_skipn in E.
      destruct p as [|a p']; [congruence|]. simpl in *.
      rewrite Nat.sub_0_r. inversion E; subst. now rewrite <- H1.
    + rewrite IH by lia. reflexivity.
Qed.

Lemma join_chars (s : str) : join (List.map (fun c => [c]) s) [] = s.
Proof.
  induction s as [|c s IH]; [reflexivity|].
  destruct s as [|d s]; [reflexivity|].
  change (join (List.map (fun c => [c]) (c :: d :: s)) [])
    with ([c] ++ [] ++ join (List.map (fun c => [c]) (d :: s)) []).
  now rewrite IH.
Qed.

(** Replacing a text by itself changes nothing, whatever the text and the
    token, the empty token included: [s.split(p).join(p)] is [s]. *)
Theorem splitJoin_self (s p : str) : splitJoin s p p = s.
Proof.
  destruct p as [|a p].
  - unfold splitJoin, split. apply join_chars.
  - rewrite splitJoin_scan by discriminate.
    now rewrite replScan_self by (try discriminate; lia).
Qed.

Lemma replScan_absent (p r s : str) :
  includes s p = false -> replScan p r s 0 = s.
Proof.
  induction s as [|c s IH]; [reflexivity|].
  cbn [includes replScan]. intros H. apply orb_false_iff in H.
  destruct H as [-> H]. now rewrite IH.
Qed.

Lemma splitJoin_absent (s p r : str) :
  includes s p = false -> splitJoin s p r = s.
Proof.
  intros H. destruct p as [|a p].
  - destruct s; discriminate.
  - rewrite splitJoin_scan by discriminate. now apply replScan_absent.
Qed.

Lemma replaceEach_absent (text : str) (entries : obj) :
  forallb (fun kv => negb (includes text (fst kv)) && isString (snd kv))
          entries = true ->
  replaceEach text entries = Ok text.
Proof.
  induction entries as [|[k v] entries IH]; [reflexivity|].
  cbn [forallb fst snd replaceEach]. intros H.
  apply andb_true_iff in H. destruct H as [H Hrest].
  apply andb_true_iff in H. destruct H as [Hk Hv].
  apply negb_true_iff in Hk.
  destruct v; try discriminate. cbn [joinV toStringV bind].
  fold (splitJoin text k s). rewrite (splitJoin_absent _ _ _ Hk).
  now apply IH.
Qed.

(** A replacement whose token does not occur in the text has no effect:
    when no key of the replacements object occurs in the text (and the
    values are strings), [modifyTemplate] returns the text unchanged. *)
Theorem modifyTemplate_absent_tokens (text : str) (replacements : obj) :
  forallb (fun kv => negb (includes text (fst kv)) && isString (snd kv))
          replacements = true ->
  modifyTemplate text (VObject replacements) = Ok text.
Proof.
  intros H. unfold modifyTemplate, objectEntries. cbn [bind enumerable].
  apply replaceEach_absent.
  rewrite forallb_forall in *. intros kv Hin. apply H.
  eapply Permutation_in; [apply ownProps_perm | exact Hin].
Qed.

Lemma modifyTemplate_absent_tokens_witness :
  modifyTemplate input
    (VObject [ (lit "BOTTOM", VString (lit "Z"));
               (lit "TREE_STAR", VString (lit "#")) ])
  = Ok input.
Proof. apply modifyTemplate_absent_tokens. vm_compute. reflexivity. Defined.

(** ** What validation accepts and what it reports *)

Lemma validateSub_spec (key : str) (subs : obj) :
  match validateSub key subs with
  | Ok _ => forallb (fun kv => isString (snd kv)) subs = true
  | Throw (InvalidOption _) =>
    forallb (fun kv => isString (snd kv)) subs = false
  | _ => False
  end.
Proof.
  induction subs as [|[subKey w] subs IH]; [reflexivity|].
  cbn [validateSub forallb snd]. destruct w; try reflexivity. exact IH.
Qed.

Lemma validateOptions_spec (props : obj) :
  match validateOptions props with
  | Ok _ => forallb (fun kv => accepted (snd kv)) props = true
  | Throw (InvalidOption _) =>
    forallb (fun kv => accepted (snd kv)) props = false
  | _ => False
  end.
Proof.
  induction props as [|[key v] props IH]; [reflexivity|].
  cbn [validateOptions forallb snd].
  destruct v; try reflexivity; try exact IH.
  cbn [typeof isArray accepted forIn enumerable].
  change (str_eqb (lit "object") (lit "object") && negb false) with true.
  cbv iota.
  pose proof (validateSub_spec key (ownProps props0)) as Hs.
  destruct (validateSub key (ownProps props0)) as [[]|[]|];
    cbn [bind]; try contradiction.
  - rewrite Hs. exact IH.
  - now rewrite Hs.
Qed.

Lemma forallb_perm {X} (f : X -> bool) (l1 l2 : list X) :
  Permutation l1 l2 -> forallb f l1 = forallb f l2.
Proof.
  induction 1; simpl; try congruence.
  - now rewrite !andb_assoc, (andb_comm (f y)).
Qed.

(** [mergeOptions] returns the merged object exactly when every one of its
    values is a string, null, or a non-array object whose values are all
    strings; otherwise it throws its own error, and nothing else. *)
Theorem mergeOptions_accepts (options : value) :
  match mergeOptions options with
  | Ok merged =>
    merged = mergedOf options /\
    forallb (fun kv => accepted (snd kv)) (mergedOf options) = true
  | Throw (InvalidOption _) =>
    forallb (fun kv => accepted (snd kv)) (mergedOf options) = false
  | _ => False
  end.
Proof.
  unfold mergeOptions. fold (mergedOf options).
  rewrite <- (forallb_perm _ _ _ (ownProps_perm (mergedOf options))).
  pose proof (validateOptions_spec (ownProps (mergedOf options))) as H.
  destruct (validateOptions (ownProps (mergedOf options))) as [[]|[]|];
    cbn [bind]; try contradiction; auto.
Qed.

(** When [mergeOptions] throws, the message names a key of the merged
    object whose value is not a string, or a key path into an object
    value whose sub-value is not a string, with the [typeof] of the
    offending value. *)
Theorem mergeOptions_error_names_offender (options : value) (e : error) :
  mergeOptions options = Throw e ->
  exists key v, In (key, v) (mergedOf options) /\
    ((isString v = false /\ e = InvalidOption (topMessage key v)) \/
     (exists subKey w, In (subKey, w) (forIn v) /\ isString w = false /\
                       e = InvalidOption (subMessage key subKey w))).
Proof.
  unfold mergeOptions. fold (mergedOf options). intros H.
  destruct (validateOptions (ownProps (mergedOf options))) as [[]|e'|] eqn:E;
    cbn [bind] in H; try discriminate.
  inversion H; subst e'. apply validateOptions_throw in E.
  destruct E as (key & v & Hin & Hc). exists key, v. split; [|exact Hc].
  eapply Permutation_in; [apply ownProps_perm | exact Hin].
Qed.

Lemma mergeOptions_error_names_offender_witness :
  exists key v,
    In (key, v) (mergedOf (VObject [ (lit "star",
                   VObject [ (lit "TOP", VBool true) ]) ])) /\
    ((isString v = false /\
      InvalidOption
        (lit "Invalid value for star.TOP: expected a string but got boolean")
      = InvalidOption (topMessage key v)) \/
     (exists subKey w, In (subKey, w) (forIn v) /\ isString w = false /\
        InvalidOption
          (lit "Invalid value for star.TOP: expected a string but got boolean")
        = InvalidOption (subMessage key subKey w))).
Proof.
  apply (mergeOptions_error_names_offender
           (VObject [ (lit "star", VObject [ (lit "TOP", VBool true) ]) ])).
  reflexivity.
Defined.

Lemma getProp_Some_In (o : obj) (k : str) (v : value) :
  getProp o k = Some v -> In (k, v) o.
Proof.
  induction o as [|[k' v'] o IH]; simpl; [discriminate|].
  destruct (str_eqb k' k) eqn:E.
  - apply str_eqb_eq in E. intros H. inversion H; subst. now left.
  - intros H. right. now apply IH.
Qed.

Lemma spread_keeps (l target : obj) (k : str) :
  getProp target k <> None ->
  getProp (fold_left (fun o kv => setProp o (fst kv) (snd kv)) l target) k
  <> None.
Proof.
  revert target. induction l as [|[k0 v0] l IH]; intros target H; [exact H|].
  cbn [fold_left fst snd]. apply IH. rewrite getProp_setProp.
  destruct (str_eqb k0 k); [discriminate | exact H].
Qed.

Lemma merged_option_accepted (options : value) (merged : obj) (k : str) :
  mergeOptions options = Ok merged ->
  getProp defaultOptions k <> None ->
  accepted (getV merged k) = true.
Proof.
  unfold mergeOptions. fold (mergedOf options). intros H Hk.
  pose proof (validateOptions_spec (ownProps (mergedOf options))) as Hv.
  destruct (validateOptions (ownProps (mergedOf options))) as [[]|e|];
    cbn [bind] in H; try discriminate.
  inversion H; subst merged.
  rewrite (forallb_perm _ _ _ (ownProps_perm (mergedOf options))) in Hv.
  rewrite forallb_forall in Hv. unfold getV.
  destruct (getProp (mergedOf options) k) as [v|] eqn:E.
  - apply getProp_Some_In in E. exact (Hv _ E).
  - exfalso. revert E. unfold mergedOf, mergedOptions, spreadInto at 1.
    apply spread_keeps. exact Hk.
Qed.

(** Whatever the caller passes, after a successful merge the options
    [star], [balls] and [stars] are all present, and each is a string,
    null, or a non-array object of strings: never undefined, a number, a
    boolean or an array. *)
Theorem mergeOptions_three_options (options : value) (merged : obj) :
  mergeOptions options = Ok merged ->
  accepted (getV merged (lit "star")) = true /\
  accepted (getV merged (lit "balls")) = true /\
  accepted (getV merged (lit "stars")) = true.
Proof.
  intros H.
  repeat split; apply (merged_option_accepted options); try exact H;
    discriminate.
Qed.

Lemma mergeOptions_three_options_witness :
  accepted (getV (mergedOf (ballsConfig VNull)) (lit "star")) = true /\
  accepted (getV (mergedOf (ballsConfig VNull)) (lit "balls")) = true /\
  accepted (getV (mergedOf (ballsConfig VNull)) (lit "stars")) = true.
Proof.
  apply (mergeOptions_three_options (ballsConfig VNull)). reflexivity.
Defined.

(** ** A colouring pass consumes what it looks for *)

Lemma uintStr_within (u : Decimal.uint) :
  within (lightAlphabet []) (uintStr u) = true.
Proof. induction u; simpl; try rewrite IHu; reflexivity. Qed.

Lemma toAnsi_within (color : Color) :
  within (lightAlphabet []) (toAnsi color) = true.
Proof.
  unfold toAnsi, decimal.
  change (ESC :: lit "[38;2;" ++ uintStr (N.to_uint (r color)) ++ lit ";" ++
          uintStr (N.to_uint (g color)) ++ lit ";" ++
          uintStr (N.to_uint (b color)) ++ lit "m")
    with ((ESC :: lit "[38;2;") ++ uintStr (N.to_uint (r color)) ++ lit ";" ++
          uintStr (N.to_uint (g color)) ++ lit ";" ++
          uintStr (N.to_uint (b color)) ++ lit "m").
  rewrite !within_app, !uintStr_within. reflexivity.
Qed.

Lemma within_member (A s : str) (m : N) :
  within A s = true -> member m A = false -> member m s = false.
Proof.
  intros Hs Hm. destruct (member m s) eqn:E; [|reflexivity].
  apply existsb_exists in E. destruct E as [x [Hx E]].
  apply N.eqb_eq in E. subst x.
  unfold within in Hs. rewrite forallb_forall in Hs.
  rewrite (Hs m Hx) in Hm. discriminate.
Qed.

(** One pass of [applyColorToChars], for any colour: when the marker is
    not a character of an escape sequence nor of the glyph, and the glyph
    has no escape character, the pass leaves no marker-glyph pair behind,
    so that a second entry with the same glyph changes nothing. *)
Theorem applyColorToChars_consumes (text : str) (color : Color) (m : N)
    (c : str) :
  member m (lightAlphabet c) = false ->
  member ESC c = false ->
  exists out,
    applyColorToChars text color [m] [VString c] = Ok out /\
    includes out (m :: c) = false /\
    applyColorToChars text color [m] [VString c; VString c] = Ok out.
Proof.
  intros Hm Hesc.
  change (lightAlphabet c) with (lightAlphabet [] ++ c) in Hm.
  rewrite member_app in Hm. apply orb_false_iff in Hm.
  destruct Hm as [Hbase Hc].
  assert (Hclear : includes (splitJoin text (m :: c) (formatStr color c))
                            (m :: c) = false).
  { rewrite splitJoin_scan by discriminate.
    unfold formatStr, toAnsi. cbn [app].
    apply replScan_clear.
    - cbn [member existsb]. cbn [member existsb] in Hbase.
      apply orb_false_iff in Hbase. destruct Hbase as [Hbase _].
      rewrite N.eqb_sym, Hbase. exact Hesc.
    - change (ESC :: (lit "[38;2;" ++ decimal (r color) ++ lit ";" ++
                      decimal (g color) ++ lit ";" ++ decimal (b color) ++
                      lit "m") ++ c ++ reset)
        with (toAnsi color ++ c ++ reset).
      unfold member. rewrite !existsb_app. fold (member m (toAnsi color)).
      fold (member m c). fold (member m reset).
      rewrite (within_member _ _ _ (toAnsi_within color) Hbase), Hc.
      now rewrite (within_member (lightAlphabet []) reset m eq_refl Hbase).
    - apply quiet_self. }
  exists (splitJoin text (m :: c) (formatStr color c)).
  split; [reflexivity|]. split; [exact Hclear|].
  cbn [applyColorToChars format toStringV bind app].
  fold (splitJoin text (m :: c) (formatStr color c)).
  fold (splitJoin (splitJoin text (m :: c) (formatStr color c)) (m :: c)
                  (formatStr color c)).
  now rewrite (splitJoin_absent _ _ _ Hclear).
Qed.

Lemma applyColorToChars_consumes_witness :
  exists out,
    applyColorToChars (lit "y-yANGELy-") yellow (lit "y")
                      [VString (lit "-")] = Ok out /\
    includes out (lit "y-") = false /\
    applyColorToChars (lit "y-yANGELy-") yellow (lit "y")
                      [VString (lit "-"); VString (lit "-")] = Ok out.
Proof.
  apply (applyColorToChars_consumes (lit "y-yANGELy-") yellow 121 (lit "-"));
    reflexivity.
Defined.

(** ** Text without marker letters is never coloured *)

Lemma includes_no_head (s : str) (h : N) (q : str) :
  member h s = false -> includes s (h :: q) = false.
Proof.
  induction s as [|c s IH]; [reflexivity|].
  cbn [member existsb includes isPrefix]. intros H.
  apply orb_false_iff in H. destruct H as [Hc Hs].
  rewrite Hc. now apply IH.
Qed.

Lemma passes_start_with_marker (cs : list str) :
  Forall (fun pr => exists m q, fst pr = m :: q /\ member m markers = true)
         (passes cs).
Proof.
  unfold passes. rewrite !Forall_app. repeat split.
  - apply Forall_forall. intros pr H. apply in_map_iff in H.
    destruct H as [c [<- _]]. now exists 121%N, c.
  - repeat constructor; now eexists; eexists.
  - repeat constructor; now eexists; eexists.
Qed.

Lemma steps_need_marker (ps : list (str * str)) (base : str) :
  Forall (fun pr => exists m q, fst pr = m :: q /\ member m markers = true)
         ps ->
  avoids markers base = true ->
  fold_left step ps base = base.
Proof.
  intros Hp Hb. induction Hp as [|pr ps (m & q & Hpr & Hm) _ IH];
    [reflexivity|].
  cbn [fold_left]. replace (step base pr) with base; [exact IH|].
  symmetry. unfold step. destruct pr as [p r0]. cbn [fst snd] in *.
  subst p. apply splitJoin_absent.
  apply includes_no_head. now apply (avoids_member markers).
Qed.

(** [applyColors] changes only text that holds a marker letter: a text
    with no y, g or b comes back as it was, whatever the glyphs. *)
Theorem applyColors_needs_marker (options : obj) (cs : list str)
    (base : str) :
  glyphs options = Ok cs ->
  avoids markers base = true ->
  applyColors options base = Ok base.
Proof.
  intros Hg Hb. rewrite (applyColors_paint _ _ _ Hg), paint_passes.
  f_equal. apply steps_need_marker; [apply passes_start_with_marker|exact Hb].
Qed.

Lemma applyColors_needs_marker_witness :
  applyColors defaultOptions (lit "/\  /\    ___  _ __  _ __ __    __")
  = Ok (lit "/\  /\    ___  _ __  _ __ __    __").
Proof.
  apply (applyColors_needs_marker defaultOptions
           [lit "|"; lit "+"; lit "-"; lit "-"; lit "A"; lit "*"]);
    reflexivity.
Defined.

(** ** Null and unusable option values after validation *)

(** [star: null] passes validation, and the call then throws a TypeError
    from [Object.entries] in [modifyTemplate]; this for every
    configuration whose other values validation accepts. *)
Theorem null_star_type_error (options : value) (merged : obj) (rnd : rng) :
  mergeOptions options = Ok merged ->
  getV merged (lit "star") = VNull ->
  ctree options rnd = Throw TypeError.
Proof.
  intros Hm Hs. unfold ctree. rewrite Hm. cbn [bind].
  unfold substituted. now rewrite Hs.
Qed.

Lemma null_star_type_error_witness :
  ctree (VObject [ (lit "star", VNull) ]) zeroDraws = Throw TypeError.
Proof.
  apply (null_star_type_error (VObject [ (lit "star", VNull) ])
           [ (lit "star", VNull); (lit "balls", VString (lit "O"));
             (lit "stars", VString (lit "*")) ]);
    reflexivity.
Defined.

(** A [balls] text that starts with a closing parenthesis makes the
    lights pattern [(\d+))...?], which no continuation can repair: the
    call throws a SyntaxError, whatever follows the parenthesis. *)
Theorem closing_paren_balls_syntax_error (rest : str) (rnd : rng) :
  ctree (ballsConfig (VString (chRParen :: rest))) rnd = Throw SyntaxError.
Proof.
  unfold ctree.
  change (mergeOptions (ballsConfig (VString (chRParen :: rest))))
    with (Ok [ (lit "star", VObject defaultStar);
               (lit "balls", VString (chRParen :: rest));
               (lit "stars", VString (lit "*")) ]).
  cbn [bind]. unfold substituted.
  destruct (modifyTemplate input _) as [input1| |] eqn:E1;
    [|vm_compute in E1; discriminate..].
  cbn [bind].
  destruct (modifyTemplate input1 _) as [input2| |] eqn:E2;
    [|vm_compute in E2; discriminate..].
  cbn [bind]. reflexivity.
Qed.

(** ** Random draws of the lights pass *)

Lemma lights_ext (b : str) (rnd1 rnd2 : rng) (n i : nat) :
  (forall j, j < n -> rnd1 (i + j) = rnd2 (i + j)) ->
  lights b rnd1 i n = lights b rnd2 i n.
Proof.
  revert i. induction n as [|n IH]; intros i H; [reflexivity|].
  cbn [lights]. f_equal.
  - specialize (H 0 ltac:(lia)). rewrite Nat.add_0_r in H. now rewrite H.
  - apply IH. intros j Hj. specialize (H (S j) ltac:(lia)).
    now replace (S i + j) with (i + S j) by lia.
Qed.

(** The lights pass makes one draw per match, in match order, and none
    beyond: it puts after the i-th piece the ball text in the colour of
    draw i, and two random sources that agree on as many draws as there
    are matches give the same text. *)
Theorem applyColorsToLights_draws (options : obj) (text : str)
    (ms : list (str * str)) (tail b : str) (rnd1 rnd2 : rng) :
  lightMatches options text = Ok (ms, tail) ->
  toStringV (getV options (lit "balls")) = Ok b ->
  (forall i, i < List.length ms -> rnd1 i = rnd2 i) ->
  applyColorsToLights options rnd1 text
  = Ok (weave (List.map fst ms) (lights b rnd1 0 (List.length ms)) tail) /\
  applyColorsToLights options rnd1 text = applyColorsToLights options rnd2 text.
Proof.
  intros Hl Hb Hr. unfold applyColorsToLights. rewrite Hl. cbn [bind fst snd].
  rewrite !(replaceMatches_weave _ b) by assumption.
  split; [reflexivity|]. do 2 f_equal. now apply lights_ext.
Qed.

Lemma applyColorsToLights_draws_witness :
  applyColorsToLights defaultOptions zeroDraws (lit "a 12 b 7O c")
  = Ok (weave [lit "a "; lit " b "]
              (lights (lit "O") zeroDraws 0 2) (lit " c")) /\
  applyColorsToLights defaultOptions zeroDraws (lit "a 12 b 7O c")
  = applyColorsToLights defaultOptions
      (fun i => if Nat.ltb i 2 then zeroDraws i else largestDraw)
      (lit "a 12 b 7O c").
Proof.
  apply (applyColorsToLights_draws defaultOptions (lit "a 12 b 7O c")
           [ (lit "a ", lit "12"); (lit " b ", lit "7O") ] (lit " c")
           (lit "O"));
    [reflexivity | reflexivity |].
  intros i Hi. cbn [List.length] in Hi.
  destruct i as [|[|i]]; [reflexivity | reflexivity | lia].
Defined.

(** ** The call the module itself makes *)


(** ** The lights pattern of a one-character ball glyph *)

Lemma member_cons_false (c x : N) (l : str) :
  member c (x :: l) = false -> N.eqb c x = false /\ member c l = false.
Proof. cbn [member existsb]. apply orb_false_iff. Qed.

Lemma RegExp_single (c : N) :
  syntaxChar c = false ->
  RegExp (lit "(\d+)" ++ [c] ++ lit "?") = Ok (lightsRegex c).
Proof.
  unfold syntaxChar. intros H. apply orb_false_iff in H.
  destruct H as [H Hu].
  repeat (apply member_cons_false in H; destruct H as [? H]).
  unfold unmodelledChar in Hu.
  repeat (apply member_cons_false in Hu; destruct Hu as [? Hu]).
  unfold chRParen, chLParen, chBackslash, chStar, chPlus, chQuestion in *.
  unfold RegExp.
  repeat (first
    [ progress cbn
    | progress unfold chRParen, chLParen, chBackslash, chStar, chPlus,
        chQuestion, unmodelledChar
    | progress match goal with
               | H : N.eqb c _ = false |- _ => rewrite H
               end ]).
  reflexivity.
Qed.

Lemma rmatch_Cat (a b : regex) (s : str) (k : str -> mres) :
  rmatch (Cat a b) s k = rmatch a s (fun s1 => rmatch b s1 k).
Proof. reflexivity. Qed.

Lemma rmatch_Grp (body : regex) (s : str) (k : str -> mres) :
  rmatch (Grp body) s k = rmatch body s k.
Proof. reflexivity. Qed.

Lemma rmatch_Quant (body : regex) (min : nat) (max : option nat)
    (greedy : bool) (s : str) (k : str -> mres) :
  rmatch (Quant body min max greedy) s k =
  repeatLoop body greedy k (S (List.length s + min)) min max s.
Proof. reflexivity. Qed.

Lemma repeatLoop_step (body : regex) (greedy : bool) (k : str -> mres)
    (fuel min : nat) (max : option nat) (s : str) :
  repeatLoop body greedy k (S fuel) min max s =
  match max with
  | Some O => k s
  | _ =>
    let iter (_ : unit) :=
      rmatch body s (fun s' =>
        if Nat.eqb min 0 && Nat.eqb (List.length s') (List.length s)
        then MFail
        else repeatLoop body greedy k fuel (Nat.pred min) (predMax max) s') in
    if negb (Nat.eqb min 0) then iter tt
    else if greedy then orElse (iter tt) (fun _ => k s)
    else orElse (k s) iter
  end.
Proof. reflexivity. Qed.

Lemma length_neq_cons (x : N) (s : str) :
  Nat.eqb (List.length s) (List.length (x :: s)) = false.
Proof. apply Nat.eqb_neq. simpl. lia. Qed.

Lemma optional_char (c : N) (s : str) :
  rmatch (Cat (Quant (Chr c) 0 (Some 1) true) Eps) s MOk
  = MOk (optChar c s).
Proof.
  rewrite rmatch_Cat, rmatch_Quant, repeatLoop_step.
  cbv beta zeta. cbn [negb Nat.eqb andb].
  destruct s as [|x s]; [reflexivity|].
  cbn [rmatch optChar]. destruct (N.eqb x c); [|reflexivity].
  rewrite length_neq_cons. cbn [List.length Nat.add].
  rewrite repeatLoop_step. reflexivity.
Qed.

Lemma loop_digits (k : str -> mres) (f : str -> str) :
  (forall s, k s = MOk (f s)) ->
  forall s fuel, List.length s < fuel ->
    repeatLoop Dig true k fuel 0 None s = MOk (f (snd (spanDigits s))).
Proof.
  intros Hk. induction s as [|x s IH]; intros fuel Hf;
    (destruct fuel as [|fuel]; [simpl in Hf; lia|]);
    rewrite repeatLoop_step; cbv beta zeta; cbn [negb Nat.eqb andb rmatch].
  - cbn [orElse]. apply Hk.
  - cbn [spanDigits]. destruct (isDigit x).
    + rewrite length_neq_cons. rewrite IH by (simpl in Hf; lia).
      reflexivity.
    + cbn [orElse snd]. apply Hk.
Qed.

Lemma lightsRegex_match (c : N) (s : str) :
  rmatch (lightsRegex c) s MOk =
  match s with
  | x :: s' =>
    if isDigit x then MOk (optChar c (snd (spanDigits s'))) else MFail
  | [] => MFail
  end.
Proof.
  unfold lightsRegex.
  rewrite rmatch_Cat, rmatch_Grp, rmatch_Cat, rmatch_Quant, repeatLoop_step.
  cbv beta zeta.
  cbn [negb Nat.eqb andb].
  destruct s as [|x s]; [reflexivity|].
  cbn [rmatch]. destruct (isDigit x); [|reflexivity].
  apply (loop_digits _ (optChar c)).
  - intros s1. apply optional_char.
  - simpl. lia.
Qed.

Lemma spanDigits_app (s : str) :
  fst (spanDigits s) ++ snd (spanDigits s) = s.
Proof.
  induction s as [|x s IH]; [reflexivity|].
  cbn [spanDigits]. destruct (isDigit x); [|reflexivity].
  cbn [fst snd app]. now rewrite IH.
Qed.

Lemma spanDigits_exact (ds r : str) :
  forallb isDigit ds = true ->
  match r with y :: _ => isDigit y = false | [] => True end ->
  spanDigits (ds ++ r) = (ds, r).
Proof.
  intros Hd Hr. induction ds as [|x ds IH].
  - destruct r as [|y r]; [reflexivity|]. cbn [app spanDigits]. now rewrite Hr.
  - cbn [forallb] in Hd. apply andb_true_iff in Hd. destruct Hd as [Hx Hd].
    cbn [app spanDigits]. rewrite Hx, (IH Hd). reflexivity.
Qed.

Lemma spanDigits_digits (s : str) :
  forallb isDigit (fst (spanDigits s)) = true.
Proof.
  induction s as [|x s IH]; [reflexivity|].
  cbn [spanDigits]. destruct (isDigit x) eqn:E; [|reflexivity].
  cbn [fst forallb]. now rewrite E, IH.
Qed.

Lemma spanDigits_stop (s : str) :
  match snd (spanDigits s) with
  | y :: _ => isDigit y = false
  | [] => True
  end.
Proof.
  induction s as [|x s IH]; [exact I|].
  cbn [spanDigits]. destruct (isDigit x) eqn:E; [exact IH | exact E].
Qed.

Lemma firstn_prefix (a b s : str) :
  s = a ++ b -> firstn (List.length s - List.length b) s = a.
Proof.
  intros ->. rewrite length_app, Nat.add_sub.
  rewrite firstn_app, Nat.sub_diag, firstn_all. cbn [firstn].
  apply app_nil_r.
Qed.

Lemma execAt_single (c : N) (s : str) :
  execAt (lightsRegex c) s = Ok (runAt c s).
Proof.
  unfold execAt. rewrite lightsRegex_match.
  destruct s as [|x s]; [reflexivity|]. cbn [runAt].
  destruct (isDigit x); [|reflexivity]. do 2 f_equal.
  pose proof (spanDigits_app s) as Hs.
  destruct (spanDigits s) as [ds rest]. cbn [fst snd] in *. subst s.
  destruct rest as [|y rest]; cbn [optChar].
  - apply firstn_prefix. now rewrite !app_nil_r.
  - destruct (N.eqb_spec y c) as [->|Hy]; apply firstn_prefix.
    + cbn [app]. now rewrite <- app_assoc.
    + now rewrite app_nil_r.
Qed.

Lemma skipn_exact (a b : str) : skipn (List.length a) (a ++ b) = b.
Proof. induction a as [|x a IH]; [reflexivity | exact IH]. Qed.

Lemma runAt_Some (c x : N) (s m : str) :
  runAt c (x :: s) = Some m ->
  exists n, List.length m = S n /\ n <= List.length s /\
            m ++ skipn n s = x :: s /\ isRun c m = true.
Proof.
  cbn [runAt]. destruct (isDigit x) eqn:Ex; [|discriminate].
  pose proof (spanDigits_app s) as Hs.
  pose proof (spanDigits_digits s) as Hd.
  pose proof (spanDigits_stop s) as Hstop.
  destruct (spanDigits s) as [ds rest]. cbn [fst snd] in *.
  intros H. inversion H; subst m; clear H.
  set (o := match rest with
            | y :: _ => if N.eqb y c then [c] else []
            | [] => []
            end).
  assert (Ho : exists rest', rest = o ++ rest' /\
                 match o with y :: _ => isDigit y = false | [] => True end /\
                 (str_eqb o [] || str_eqb o [c]) = true).
  { subst o. destruct rest as [|y rest].
    - exists []. repeat split.
    - destruct (N.eqb_spec y c) as [->|Hy].
      + exists rest. repeat split; [exact Hstop|].
        now rewrite (str_eqb_refl [c]), orb_true_r.
      + exists (y :: rest). repeat split. }
  destruct Ho as (rest' & Hrest & Hodig & Hoeq).
  exists (List.length (ds ++ o)). subst s. rewrite Hrest.
  split; [reflexivity|]. split; [rewrite !length_app; lia|]. split.
  - rewrite app_assoc, skipn_exact. cbn [app]. now rewrite <- app_assoc.
  - unfold isRun.
    change (x :: ds ++ o) with ((x :: ds) ++ o).
    rewrite spanDigits_exact;
      [| cbn [forallb]; now rewrite Ex, Hd | exact Hodig].
    exact Hoeq.
Qed.

Lemma runAt_None (c x : N) (s : str) :
  runAt c (x :: s) = None -> isDigit x = false.
Proof. cbn [runAt]. now destruct (isDigit x). Qed.

Lemma noDigit_rev (s : str) : noDigit (rev s) = noDigit s.
Proof.
  unfold noDigit. induction s as [|x s IH]; [reflexivity|].
  cbn [rev forallb]. rewrite forallb_app, IH. cbn [forallb].
  now rewrite andb_true_r, andb_comm.
Qed.

Lemma matchAll_single (c : N) (s : str) :
  forall skip cur,
    skip <= List.length s -> noDigit cur = true ->
    exists ms tail,
      matchAll (lightsRegex c) s skip cur = Ok (ms, tail) /\
      List.concat (List.map (fun m => fst m ++ snd m) ms) ++ tail
      = rev cur ++ skipn skip s /\
      forallb (fun m => noDigit (fst m) && isRun c (snd m)) ms = true /\
      noDigit tail = true /\
      greedyRuns c ms tail = true.
Proof.
  induction s as [|x s IH]; intros skip cur Hskip Hcur.
  - simpl in Hskip. replace skip with 0 by lia.
    exists [], (rev cur). cbn [matchAll]. rewrite execAt_single.
    cbn [bind runAt]. split; [reflexivity|]. split; [|split; [|split]].
    + cbn [List.map List.concat skipn app]. now rewrite app_nil_r.
    + reflexivity.
    + now rewrite noDigit_rev.
    + reflexivity.
  - destruct skip as [|k].
    + cbn [matchAll]. rewrite execAt_single. cbn [bind skipn].
      destruct (runAt c (x :: s)) as [m|] eqn:E.
      * pose proof E as Erun.
        apply runAt_Some in E. destruct E as (n & Hlen & Hn & Hsplit & Hrun).
        rewrite Hlen.
        destruct (IH n [] Hn eq_refl)
          as (ms & tail & Hm & Hcat & Hall & Ht & Hgreedy).
        exists ((rev cur, m) :: ms), tail. rewrite Hm. cbn [bind fst snd].
        split; [reflexivity|]. split; [|split; [|split; [exact Ht|]]].
        -- cbn [List.map List.concat fst snd]. rewrite <- !app_assoc, Hcat.
           cbn [rev app]. now rewrite Hsplit.
        -- cbn [forallb fst snd]. now rewrite noDigit_rev, Hcur, Hrun, Hall.
        -- cbn [greedyRuns]. rewrite Hcat. cbn [rev app].
           rewrite Hsplit, Erun, str_eqb_refl. exact Hgreedy.
      * apply runAt_None in E.
        destruct (IH 0 (x :: cur) ltac:(lia)) as (ms & tail & Hm & Hcat & Hr).
        { unfold noDigit in *. cbn [forallb]. now rewrite E, Hcur. }
        exists ms, tail. split; [exact Hm|]. split; [|exact Hr].
        rewrite Hcat. cbn [rev skipn]. now rewrite <- app_assoc.
    + cbn [matchAll skipn]. apply IH; [simpl in Hskip; lia | exact Hcur].
Qed.

(** With a one-character ball glyph that has no role in the pattern
    syntax, the lights pass finds exactly the digit runs, one match per
    run: the pieces between the matches and the text after the last one
    hold no digit, every match is a run of digits alone or followed by one
    ball glyph, at the place of each match the longest run of digits with
    the ball glyph that may follow is the match itself, pieces and matches
    put back together give the text, and the result has the ball glyph,
    coloured by its own draw, in place of each match. *)
Theorem lights_single_glyph (options : obj) (c : N) (text : str) (rnd : rng) :
  syntaxChar c = false ->
  getV options (lit "balls") = VString [c] ->
  exists ms tail,
    lightMatches options text = Ok (ms, tail) /\
    List.concat (List.map (fun m => fst m ++ snd m) ms) ++ tail = text /\
    forallb (fun m => noDigit (fst m) && isRun c (snd m)) ms = true /\
    noDigit tail = true /\
    greedyRuns c ms tail = true /\
    applyColorsToLights options rnd text
    = Ok (weave (List.map fst ms) (lights [c] rnd 0 (List.length ms)) tail).
Proof.
  intros Hc Hb.
  destruct (matchAll_single c text 0 [] ltac:(lia) eq_refl)
    as (ms & tail & Hm & Hcat & Hall & Ht & Hgreedy).
  assert (Hl : lightMatches options text = Ok (ms, tail)).
  { unfold lightMatches, lightsPattern. rewrite Hb. cbn [toStringV bind].
    rewrite (RegExp_single c Hc). exact Hm. }
  exists ms, tail. repeat split; try assumption.
  unfold applyColorsToLights. rewrite Hl, Hb. cbn [bind fst snd].
  now apply replaceMatches_weave.
Qed.

Lemma lights_single_glyph_witness :
  exists ms tail,
    lightMatches defaultOptions (lit "a 12 b 7O c") = Ok (ms, tail) /\
    List.concat (List.map (fun m => fst m ++ snd m) ms) ++ tail
    = lit "a 12 b 7O c" /\
    forallb (fun m => noDigit (fst m) && isRun 79 (snd m)) ms = true /\
    noDigit tail = true /\
    greedyRuns 79 ms tail = true /\
    applyColorsToLights defaultOptions zeroDraws (lit "a 12 b 7O c")
    = Ok (weave (List.map fst ms)
                (lights (lit "O") zeroDraws 0 (List.length ms)) tail).
Proof.
  apply (lights_single_glyph defaultOptions 79 (lit "a 12 b 7O c") zeroDraws);
    reflexivity.
Defined.

(** ** When the call returns *)

Lemma indexFrom_strings (s : str) (i : N) :
  forallb (fun kv => isString (snd kv))
          (indexFrom (fun c => VString [c]) i s) = true.
Proof. revert i. induction s as [|c s IH]; intros i; simpl; auto. Qed.

Lemma accepted_entries (v : value) :
  accepted v = true -> isNull v = false ->
  exists e, objectEntries v = Ok e /\
            forallb (fun kv => isString (snd kv)) e = true.
Proof.
  destruct v; try discriminate; intros Ha _.
  - eexists. split; [reflexivity|]. apply indexFrom_strings.
  - eexists. split; [reflexivity|]. exact Ha.
Qed.

Lemma replaceEach_strings (entries : obj) (text : str) :
  forallb (fun kv => isString (snd kv)) entries = true ->
  exists t, replaceEach text entries = Ok t.
Proof.
  revert text. induction entries as [|[k v] entries IH]; intros text H.
  - now exists text.
  - cbn [forallb snd] in H. apply andb_true_iff in H. destruct H as [Hv H].
    destruct v; try discriminate. cbn [replaceEach joinV toStringV bind].
    now apply IH.
Qed.

Lemma stringsOf_strings (vs : list value) :
  forallb isString vs = true -> exists cs, stringsOf vs = Ok cs.
Proof.
  induction vs as [|v vs IH]; intros H; [now exists []|].
  cbn [forallb] in H. apply andb_true_iff in H. destruct H as [Hv H].
  destruct v; try discriminate. destruct (IH H) as [cs Hcs].
  exists (s :: cs). cbn [stringsOf toStringV bind]. now rewrite Hcs.
Qed.

Lemma accepted_property (o : obj) (k : str) (v : value) :
  accepted (VObject o) = true -> getProp o k = Some v -> isString v = true.
Proof.
  cbn [accepted]. intros Ha Hk. apply getProp_Some_In in Hk.
  rewrite (forallb_perm _ _ _ (ownProps_perm o)) in Ha.
  rewrite forallb_forall in Ha. exact (Ha _ Hk).
Qed.

Lemma accepted_toString (v : value) :
  accepted v = true ->
  if ownToString v then toStringV v = Throw TypeError
  else exists t, toStringV v = Ok t.
Proof.
  destruct v; try discriminate; intros Ha; cbn [ownToString toStringV];
    try (eexists; reflexivity).
  unfold objectToString.
  destruct (getProp props (lit "toString")) as [m|] eqn:Et;
    [|eexists; reflexivity].
  pose proof (accepted_property _ _ _ Ha Et) as Hm.
  destruct m; try discriminate.
  destruct (getProp props (lit "valueOf")) as [w|] eqn:Ev; [|reflexivity].
  pose proof (accepted_property _ _ _ Ha Ev) as Hw.
  destruct w; try discriminate. reflexivity.
Qed.

Lemma accepted_join (parts : list str) (v : value) :
  accepted v = true ->
  if ownToString v then joinV parts v = Throw TypeError
  else exists t, joinV parts v = Ok t.
Proof.
  intros Ha. pose proof (accepted_toString v Ha) as Ht.
  destruct v; try discriminate; cbn [ownToString joinV] in *;
    try (eexists; reflexivity).
  destruct (match getProp props (lit "toString") with
            | Some _ => true | None => false end).
  - now rewrite Ht.
  - destruct Ht as [t ->]. now eexists.
Qed.

Lemma substituted_outcome (merged : obj) (c : N) :
  accepted (getV merged (lit "star")) = true ->
  isNull (getV merged (lit "star")) = false ->
  accepted (getV merged (lit "stars")) = true ->
  getV merged (lit "balls") = VString [c] ->
  if ownToString (getV merged (lit "stars"))
  then substituted merged = Throw TypeError
  else exists text, substituted merged = Ok text.
Proof.
  intros Hstar Hnull Hstars Hb. unfold substituted, modifyTemplate.
  destruct (accepted_entries _ Hstar Hnull) as (e & -> & He).
  cbn [bind]. destruct (replaceEach_strings e input He) as [t ->].
  cbn [bind]. rewrite Hb.
  change (objectEntries (VObject [ (lit "BALL", VString [c]);
                                   (lit "STAR", getV merged (lit "stars")) ]))
    with (Ok [ (lit "BALL", VString [c]);
               (lit "STAR", getV merged (lit "stars")) ]).
  cbn [bind replaceEach joinV toStringV].
  pose proof (accepted_join
                (split (join (split t (lit "BALL")) [c]) (lit "STAR"))
                _ Hstars) as Hj.
  destruct (ownToString (getV merged (lit "stars"))).
  - now rewrite Hj.
  - destruct Hj as [t2 ->]. now exists t2.
Qed.

Lemma applyColorsToLights_single (options : obj) (c : N) (text : str)
    (rnd : rng) :
  syntaxChar c = false ->
  getV options (lit "balls") = VString [c] ->
  exists colored, applyColorsToLights options rnd text = Ok colored.
Proof.
  intros Hc Hb.
  destruct (matchAll_single c text 0 [] ltac:(lia) eq_refl)
    as (ms & tail & Hm & _).
  unfold applyColorsToLights, lightMatches, lightsPattern.
  rewrite Hb. cbn [toStringV bind]. rewrite (RegExp_single c Hc).
  cbn [bind]. rewrite Hm. cbn [bind fst snd].
  rewrite (replaceMatches_weave _ [c]) by reflexivity. now eexists.
Qed.

(** For a one-character ball glyph with no role in the pattern syntax,
    the outcome of a call whose options pass validation is settled by
    [star] and [stars] alone.  The call throws a TypeError when [star] is
    null (from [Object.entries]), when [stars] is an object with an own
    [toString] property (validation made that property a string, so the
    conversion of [stars] to text in [join] throws), or when [stars] is
    null (from [Object.values]); in every other case it returns a text. *)
Theorem ctree_outcome (options : value) (merged : obj) (c : N) (rnd : rng) :
  mergeOptions options = Ok merged ->
  getV merged (lit "balls") = VString [c] ->
  syntaxChar c = false ->
  match ctree options rnd with
  | Ok _ =>
    isNull (getV merged (lit "star"))
    || ownToString (getV merged (lit "stars"))
    || isNull (getV merged (lit "stars")) = false
  | Throw TypeError =>
    isNull (getV merged (lit "star"))
    || ownToString (getV merged (lit "stars"))
    || isNull (getV merged (lit "stars")) = true
  | _ => False
  end.
Proof.
  intros Hm Hb Hc.
  assert (Hstar : accepted (getV merged (lit "star")) = true)
    by (apply (merged_option_accepted options); [exact Hm | discriminate]).
  assert (Hstars : accepted (getV merged (lit "stars")) = true)
    by (apply (merged_option_accepted options); [exact Hm | discriminate]).
  unfold ctree. rewrite Hm. cbn [bind].
  destruct (isNull (getV merged (lit "star"))) eqn:Enull.
  - unfold substituted.
    destruct (getV merged (lit "star")); try discriminate. reflexivity.
  - pose proof (substituted_outcome merged c Hstar Enull Hstars Hb) as Hsub.
    cbn [orb].
    destruct (ownToString (getV merged (lit "stars"))) eqn:Eown.
    + now rewrite Hsub.
    + destruct Hsub as [text Ht].
      destruct (applyColorsToLights_single merged c text rnd Hc Hb)
        as [colored Hl].
      rewrite Ht. cbn [bind]. rewrite Hl. cbn [bind].
      unfold applyColors, yellowChars, objectValues.
      destruct (accepted_entries _ Hstar Enull) as (e1 & -> & He1).
      cbn [bind orb].
      destruct (isNull (getV merged (lit "stars"))) eqn:Enull2.
      * destruct (getV merged (lit "stars")); try discriminate. reflexivity.
      * destruct (accepted_entries _ Hstars Enull2) as (e2 & -> & He2).
        cbn [bind].
        assert (Hvs : forallb isString (List.map snd e1 ++ List.map snd e2)
                      = true)
          by (rewrite forallb_app, !forallb_mapped; now rewrite He1, He2).
        destruct (stringsOf_strings _ Hvs) as [cs Hcs].
        rewrite (applyColorToChars_strings _ cs) by assumption. cbn [bind].
        rewrite (applyColorToChars_strings greenChars greenStrs)
          by reflexivity.
        cbn [bind].
        rewrite (applyColorToChars_strings brownChars brownStrs)
          by reflexivity.
        reflexivity.
Qed.

Lemma ctree_outcome_witness :
  match ctree (VObject [ (lit "stars",
                          VObject [ (lit "toString", VString (lit "x")) ]) ])
              zeroDraws with
  | Ok _ =>
    isNull (VObject defaultStar)
    || ownToString (VObject [ (lit "toString", VString (lit "x")) ])
    || isNull (VObject [ (lit "toString", VString (lit "x")) ]) = false
  | Throw TypeError =>
    isNull (VObject defaultStar)
    || ownToString (VObject [ (lit "toString", VString (lit "x")) ])
    || isNull (VObject [ (lit "toString", VString (lit "x")) ]) = true
  | _ => False
  end.
Proof.
  exact (ctree_outcome
           (VObject [ (lit "stars",
                       VObject [ (lit "toString", VString (lit "x")) ]) ])
           [ (lit "star", VObject defaultStar);
             (lit "balls", VString (lit "O"));
             (lit "stars", VObject [ (lit "toString", VString (lit "x")) ]) ]
           79 zeroDraws eq_refl eq_refl eq_refl).
Defined.

(** ** Options the tree depends on *)

(** Only [star], [balls] and [stars] reach the tree: two calls whose
    options pass validation and agree on these three give the same
    result, whatever other keys the caller added. *)
Theorem ctree_uses_three_options (options1 options2 : value)
    (merged1 merged2 : obj) (rnd : rng) :
  mergeOptions options1 = Ok merged1 ->
  mergeOptions options2 = Ok merged2 ->
  getV merged1 (lit "star") = getV merged2 (lit "star") ->
  getV merged1 (lit "balls") = getV merged2 (lit "balls") ->
  getV merged1 (lit "stars") = getV merged2 (lit "stars") ->
  ctree options1 rnd = ctree options2 rnd.
Proof.
  intros H1 H2 Hstar Hballs Hstars.
  unfold ctree. rewrite H1, H2. cbn [bind].
  unfold substituted, applyColorsToLights, lightMatches, applyColors,
    yellowChars.
  now rewrite Hstar, Hballs, Hstars.
Qed.

Lemma ctree_uses_three_options_witness :
  ctree (VObject [ (lit "colour", VString (lit "red")) ]) zeroDraws
  = ctree VUndefined zeroDraws.
Proof.
  apply (ctree_uses_three_options
           (VObject [ (lit "colour", VString (lit "red")) ]) VUndefined
           [ (lit "star", VObject defaultStar);
             (lit "balls", VString (lit "O"));
             (lit "stars", VString (lit "*"));
             (lit "colour", VString (lit "red")) ]
           defaultOptions);
    reflexivity.
Defined.

(** ** Colouring passes on glyphs without escape character *)

Lemma isMarker_cases (m : N) :
  isMarker m = true -> m = 121%N \/ m = 103%N \/ m = 98%N.
Proof.
  unfold isMarker, markers. cbn [member existsb lit List.map
    list_ascii_of_string]. intros H.
  repeat (apply orb_true_iff in H; destruct H as [H|H];
          [apply N.eqb_eq in H; auto|]).
  discriminate.
Qed.

Lemma marker_not_in_escape (m : N) (color : Color) :
  isMarker m = true ->
  member m (toAnsi color) = false /\ member m reset = false.
Proof.
  intros H.
  assert (Hb : member m (lightAlphabet []) = false)
    by (destruct (isMarker_cases m H) as [->|[->| ->]]; reflexivity).
  split.
  - exact (within_member _ _ _ (toAnsi_within color) Hb).
  - exact (within_member (lightAlphabet []) reset m eq_refl Hb).
Qed.

Lemma includes_short (s q : str) :
  List.length s < List.length q -> includes s q = false.
Proof.
  induction s as [|x s IH]; intros H.
  - destruct q; [simpl in H; lia | reflexivity].
  - cbn [includes]. rewrite IH by (simpl in H; lia).
    destruct (isPrefix q (x :: s)) eqn:E; [|reflexivity].
    apply isPrefix_length in E. lia.
Qed.

Lemma includes_trans (s p q : str) :
  includes s p = true -> includes p q = true -> includes s q = true.
Proof.
  intros Hsp Hpq. induction s as [|x s IH].
  - cbn [includes] in Hsp. rewrite orb_false_r in Hsp.
    destruct p; [exact Hpq | discriminate].
  - cbn [includes] in Hsp. apply orb_true_iff in Hsp.
    destruct Hsp as [Hp|Hs].
    + apply isPrefix_skipn in Hp. rewrite Hp. now apply includes_app_l.
    + cbn [includes]. rewrite (IH Hs). apply orb_true_r.
Qed.

Lemma isPrefix_app_stop (q x : str) (e : N) (rest : str) :
  member e q = false ->
  isPrefix q (x ++ e :: rest) = isPrefix q x.
Proof.
  revert q. induction x as [|y x IH]; intros [|h q] Hq; cbn [app isPrefix];
    try reflexivity.
  - cbn [member existsb] in Hq. apply orb_false_iff in Hq.
    destruct Hq as [Hq _]. now rewrite N.eqb_sym, Hq.
  - f_equal. apply IH. cbn [member existsb] in Hq.
    apply orb_false_iff in Hq. tauto.
Qed.

Lemma includes_glyph (c q : str) (e : N) (Z : str) :
  member e q = false -> includes c q = false ->
  includes (c ++ e :: Z) q = includes (e :: Z) q.
Proof.
  intros He. induction c as [|a c IH]; intros Hc; [reflexivity|].
  cbn [includes] in Hc. apply orb_false_iff in Hc. destruct Hc as [Ha Hc].
  change ((a :: c) ++ e :: Z) with (a :: (c ++ e :: Z)).
  cbn [includes]. rewrite (IH Hc).
  change (a :: c ++ e :: Z) with ((a :: c) ++ e :: Z).
  now rewrite (isPrefix_app_stop _ _ _ _ He), Ha.
Qed.

Section GlyphPass.

Variables (m : N) (color : Color) (c : str).
Variables (m' : N) (c' : str).
Hypothesis marker_m' : isMarker m' = true.
Hypothesis escape_c' : member ESC c' = false.
Hypothesis not_inside : includes c (m' :: c') = false.

Let p := m :: c.
Let r := formatStr color c.
Let q := m' :: c'.

Lemma escape_q : member ESC q = false.
Proof.
  unfold q. cbn [member existsb]. apply orb_false_iff. split; [|exact escape_c'].
  destruct (isMarker_cases m' marker_m') as [->|[->| ->]]; reflexivity.
Qed.

Lemma includes_replacement (X : str) :
  includes (r ++ X) q = includes X q.
Proof.
  destruct (marker_not_in_escape m' color marker_m') as [HE HR].
  unfold r, formatStr, q. rewrite <- !app_assoc.
  rewrite includes_skip by exact HE.
  change (reset ++ X) with (ESC :: (lit "[0m" ++ X)).
  rewrite (includes_glyph _ _ _ _ escape_q not_inside).
  change (ESC :: (lit "[0m" ++ X)) with (reset ++ X).
  unfold q. now rewrite includes_skip by exact HR.
Qed.

Lemma replScan_keeps_clear (s : str) (skip : nat) :
  quiet p q s = true -> includes (replScan p r s skip) q = false.
Proof.
  revert skip. induction s as [|x s IH]; intros skip Hs; [reflexivity|].
  cbn [quiet] in Hs. apply andb_true_iff in Hs. destruct Hs as [Hx Hs].
  cbn [replScan]. destruct skip as [|k]; [|now apply IH].
  destruct (isPrefix p (x :: s)) eqn:Ep.
  - rewrite includes_replacement. now apply IH.
  - simpl in Hx. apply negb_true_iff in Hx.
    cbn [includes]. rewrite (IH 0 Hs), orb_false_r.
    destruct (isPrefix q (x :: replScan p r s 0)) eqn:E; [|reflexivity].
    unfold q in E, Hx. cbn [isPrefix] in E, Hx. apply andb_true_iff in E.
    destruct E as [Ehx E]. rewrite Ehx in Hx. simpl in Hx.
    unfold r, formatStr, toAnsi in E. cbn [app] in E.
    apply isPrefix_replScan in E; [congruence | exact escape_c'].
Qed.

End GlyphPass.

Lemma passes_glyphPasses (cs : list str) :
  passes cs = List.map passOf (glyphPasses cs).
Proof.
  unfold passes, glyphPasses. now rewrite !map_app, !map_map.
Qed.

Lemma glyphPasses_escapeFree (cs : list str) :
  forallb escapeFree cs = true ->
  forallb escapeFreePass (glyphPasses cs) = true.
Proof.
  intros H. unfold glyphPasses. rewrite !forallb_app, !forallb_mapped.
  apply andb_true_iff. split; [|reflexivity].
  rewrite forallb_forall in *. intros c Hc.
  unfold escapeFreePass. cbn [fst snd]. now rewrite (H c Hc).
Qed.

Lemma step_clears_own (t : N * Color * str) (s : str) :
  escapeFreePass t = true ->
  includes (step s (passOf t)) (fst (passOf t)) = false.
Proof.
  destruct t as [[m color] c]. unfold escapeFreePass, passOf, step.
  cbn [fst snd]. intros H. apply andb_true_iff in H. destruct H as [Hm Hc].
  apply negb_true_iff in Hc.
  rewrite splitJoin_scan by discriminate.
  apply replScan_keeps_clear; try assumption.
  - apply includes_short. simpl. lia.
  - apply quiet_self.
Qed.

Lemma step_keeps_clear (t : N * Color * str) (m' : N) (c' s : str) :
  escapeFreePass t = true ->
  isMarker m' = true -> member ESC c' = false ->
  includes s (m' :: c') = false ->
  includes (step s (passOf t)) (m' :: c') = false.
Proof.
  destruct t as [[m color] c]. unfold escapeFreePass, passOf, step.
  cbn [fst snd]. intros H Hm' Hc' Hs.
  destruct (includes c (m' :: c')) eqn:Ein.
  - assert (Hp : includes s (m :: c) = false).
    { destruct (includes s (m :: c)) eqn:E; [|reflexivity].
      assert (Hq : includes (m :: c) (m' :: c') = true)
        by (cbn [includes]; rewrite Ein; apply orb_true_r).
      rewrite (includes_trans _ _ _ E Hq) in Hs. discriminate. }
    now rewrite (splitJoin_absent _ _ _ Hp).
  - rewrite splitJoin_scan by discriminate.
    apply replScan_keeps_clear; try assumption.
    now apply quiet_absent.
Qed.

Lemma steps_keep_clear (ts : list (N * Color * str)) (m' : N) (c' s : str) :
  forallb escapeFreePass ts = true ->
  isMarker m' = true -> member ESC c' = false ->
  includes s (m' :: c') = false ->
  includes (fold_left step (List.map passOf ts) s) (m' :: c') = false.
Proof.
  revert s. induction ts as [|t ts IH]; intros s Hts Hm' Hc' Hs; [exact Hs|].
  cbn [forallb] in Hts. apply andb_true_iff in Hts. destruct Hts as [Ht Hts].
  cbn [List.map fold_left]. apply IH; try assumption.
  now apply step_keeps_clear.
Qed.

Lemma steps_clear_all (ts : list (N * Color * str)) (s : str) :
  forallb escapeFreePass ts = true ->
  forallb (fun t => negb (includes (fold_left step (List.map passOf ts) s)
                                   (fst (passOf t)))) ts = true.
Proof.
  revert s. induction ts as [|t ts IH]; intros s Hts; [reflexivity|].
  cbn [forallb] in Hts. apply andb_true_iff in Hts. destruct Hts as [Ht Hts].
  cbn [forallb List.map fold_left]. rewrite (IH _ Hts), andb_true_r.
  apply negb_true_iff.
  pose proof (step_clears_own t s Ht) as Hown.
  destruct t as [[m color] c]. unfold escapeFreePass in Ht.
  cbn [fst snd passOf] in *. apply andb_true_iff in Ht.
  destruct Ht as [Hm Hc]. apply negb_true_iff in Hc.
  now apply steps_keep_clear.
Qed.

Lemma paint_clears (cs : list str) (s : str) :
  forallb escapeFree cs = true ->
  forallb (fun q => negb (includes (paint cs s) q)) (markerPatterns cs) = true.
Proof.
  intros H. rewrite paint_passes, <- passes_patterns, passes_glyphPasses.
  rewrite map_map, forallb_mapped.
  apply steps_clear_all. now apply glyphPasses_escapeFree.
Qed.

(** ** Marker letters that the passes leave *)

Lemma avoids_cons (A : str) (x : N) (l : str) :
  avoids A (x :: l) = true -> member x A = false /\ avoids A l = true.
Proof.
  cbn [avoids forallb]. intros H. apply andb_true_iff in H.
  destruct H as [Hx Hl]. apply negb_true_iff in Hx. now split.
Qed.

Lemma stray_marker_free (ps : list str) (l Y : str) :
  avoids markers l = true ->
  strayMarkers ps (l ++ Y) = strayMarkers ps Y.
Proof.
  induction l as [|x l IH]; intros H; [reflexivity|].
  apply avoids_cons in H. destruct H as [Hx Hl].
  change ((x :: l) ++ Y) with (x :: (l ++ Y)).
  cbn [strayMarkers]. unfold isMarker. rewrite Hx. cbn [andb].
  now rewrite IH.
Qed.

Lemma isPrefix_scan_forward (m : N) (c r c' t : str) :
  isMarker m = true -> avoids markers c' = true ->
  isPrefix c' t = true ->
  isPrefix c' (replScan (m :: c) r t 0) = true.
Proof.
  intros Hm. revert t. induction c' as [|a c' IH]; intros t Hc' Ht;
    [reflexivity|].
  destruct t as [|x t]; [discriminate|].
  cbn [isPrefix] in Ht. apply andb_true_iff in Ht. destruct Ht as [Hax Ht].
  apply N.eqb_eq in Hax. subst x.
  apply avoids_cons in Hc'. destruct Hc' as [Ha Hc'].
  cbn [replScan isPrefix].
  assert (Hma : N.eqb m a = false).
  { apply N.eqb_neq. intros ->. unfold isMarker in Hm. congruence. }
  rewrite Hma. cbn [andb isPrefix]. rewrite N.eqb_refl. cbn [andb].
  now apply IH.
Qed.

Lemma clean_prefix_scan (m : N) (c r' : str) (q : str) (x : N) (s : str) :
  isMarker m = true -> cleanPattern q = true ->
  isPrefix q (x :: replScan (m :: c) (ESC :: r') s 0) = isPrefix q (x :: s).
Proof.
  intros Hm Hq. unfold cleanPattern, patternOK in Hq.
  destruct q as [|m' c']; [discriminate|].
  apply andb_true_iff in Hq. destruct Hq as [Hq Hc'].
  apply andb_true_iff in Hq. destruct Hq as [_ Hesc].
  apply negb_true_iff in Hesc. cbn [tl] in Hc'.
  cbn [member existsb] in Hesc. apply orb_false_iff in Hesc.
  destruct Hesc as [_ Hesc].
  cbn [isPrefix]. f_equal.
  destruct (isPrefix c' s) eqn:E.
  - now apply isPrefix_scan_forward.
  - destruct (isPrefix c' (replScan (m :: c) (ESC :: r') s 0)) eqn:E';
      [|reflexivity].
    apply isPrefix_replScan in E'; [congruence | exact Hesc].
Qed.

Lemma stray_step (m : N) (c r' : str) (ps : list str) (s : str) :
  isMarker m = true -> avoids markers c = true ->
  avoids markers (ESC :: r') = true ->
  forallb cleanPattern ps = true ->
  forall skip,
    avoids markers (firstn skip s) = true ->
    strayMarkers ps (replScan (m :: c) (ESC :: r') s skip) =
    strayMarkers ((m :: c) :: ps) (skipn skip s).
Proof.
  intros Hm Hc Hr Hps.
  induction s as [|x s IH]; intros skip Hskip.
  - destruct skip; reflexivity.
  - destruct skip as [|k].
    + cbn [replScan skipn].
      destruct (isPrefix (m :: c) (x :: s)) eqn:Ep.
      * rewrite stray_marker_free by exact Hr.
        replace (List.length (m :: c) - 1) with (List.length c)
          by (simpl; lia).
        pose proof (isPrefix_skipn _ _ Ep) as Hsplit.
        cbn [List.length app skipn] in Hsplit.
        assert (Hs : s = c ++ skipn (List.length c) s) by congruence.
        assert (Hfirst : firstn (List.length c) s = c).
        { rewrite Hs at 1. rewrite firstn_app, Nat.sub_diag, firstn_all.
          cbn [firstn]. apply app_nil_r. }
        rewrite IH by (now rewrite Hfirst).
        cbn [strayMarkers existsb]. rewrite Ep. cbn [orb negb].
        rewrite andb_false_r. cbn [Nat.add].
        rewrite Hs at 2. now rewrite stray_marker_free.
      * cbn [strayMarkers existsb]. rewrite Ep. cbn [orb].
        rewrite (IH 0 eq_refl). cbn [skipn]. f_equal.
        assert (He : existsb (fun q => isPrefix q
                        (x :: replScan (m :: c) (ESC :: r') s 0)) ps
                     = existsb (fun q => isPrefix q (x :: s)) ps).
        { clear IH. induction ps as [|q ps IHps]; [reflexivity|].
          cbn [forallb] in Hps. apply andb_true_iff in Hps.
          destruct Hps as [Hq Hps]. cbn [existsb].
          rewrite (clean_prefix_scan m c r' q x s Hm Hq).
          now rewrite (IHps Hps). }
        now rewrite He.
    + cbn [firstn] in Hskip. apply avoids_cons in Hskip.
      destruct Hskip as [_ Hskip]. cbn [replScan skipn]. now apply IH.
Qed.

Lemma stray_steps (prs : list (str * str)) (s : str) :
  forallb cleanPass prs = true ->
  markerCount (fold_left step prs s) = strayMarkers (List.map fst prs) s.
Proof.
  revert s. induction prs as [|[p r] prs IH]; intros s H; [reflexivity|].
  cbn [forallb] in H. apply andb_true_iff in H. destruct H as [Hpr Hprs].
  cbn [fold_left List.map fst]. rewrite (IH _ Hprs).
  unfold cleanPass, passOK, patternOK, replacementOK in Hpr.
  cbn [fst snd] in Hpr.
  destruct p as [|m c]; [discriminate|].
  destruct r as [|e r']; [rewrite andb_false_r in Hpr; discriminate|].
  cbn [tl] in Hpr.
  apply andb_true_iff in Hpr. destruct Hpr as [Hpr Hc].
  apply andb_true_iff in Hpr. destruct Hpr as [Hp Hr].
  apply andb_true_iff in Hp. destruct Hp as [Hm Hesc].
  apply andb_true_iff in Hr. destruct Hr as [He Hav].
  apply N.eqb_eq in He. subst e.
  unfold step. cbn [fst snd]. rewrite splitJoin_scan by discriminate.
  rewrite (stray_step m c r' (List.map fst prs) s); try assumption;
    try reflexivity.
  clear - Hprs. induction prs as [|[p r] prs IH]; [reflexivity|].
  cbn [forallb] in Hprs. apply andb_true_iff in Hprs.
  destruct Hprs as [Hpr Hprs]. cbn [List.map forallb fst].
  rewrite (IH Hprs), andb_true_r.
  unfold cleanPass, passOK in Hpr. cbn [fst snd] in Hpr.
  unfold cleanPattern.
  apply andb_true_iff in Hpr. destruct Hpr as [Hpr Hc].
  apply andb_true_iff in Hpr. destruct Hpr as [Hp _].
  now rewrite Hp, Hc.
Qed.

Lemma passes_clean (cs : list str) :
  forallb plainGlyph cs = true -> forallb cleanPass (passes cs) = true.
Proof.
  intros H. pose proof (passes_OK cs H) as Hok.
  unfold passes in *. rewrite !forallb_app, !forallb_mapped in *.
  apply andb_true_iff in Hok. destruct Hok as [Hy _].
  apply andb_true_iff. split; [|reflexivity].
  rewrite forallb_forall in *. intros c Hc.
  unfold cleanPass. rewrite (Hy c Hc). cbn [andb fst tl app lit List.map
    list_ascii_of_string].
  specialize (H c Hc). unfold plainGlyph in H.
  unfold avoids in *. rewrite forallb_forall in *. intros x Hx.
  specialize (H x Hx). apply negb_true_iff in H. apply negb_true_iff.
  cbn [member existsb] in H. apply orb_false_iff in H. tauto.
Qed.

Lemma paint_strays (cs : list str) (s : str) :
  forallb plainGlyph cs = true ->
  markerCount (paint cs s) = strayMarkers (markerPatterns cs) s.
Proof.
  intros H. rewrite paint_passes, <- passes_patterns.
  apply stray_steps. now apply passes_clean.
Qed.

(** C7, amended.  When no glyph of the yellow pass (the values of [star]
    and the characters of [stars]) contains the escape character, the
    colouring passes turn every text into one that contains no marker
    letter followed by a glyph of its category: no y followed by a yellow
    glyph, no g followed by [/], [\] or [=], no b followed by [|] or [_];
    so does every text the call returns.  When moreover no glyph contains
    a marker letter, the marker letters left are exactly as many as the
    marker letters that, in the text handed to the colouring passes, were
    not followed by a glyph of their category. *)
Theorem C7_escape_free_glyphs_consumed (options : value) (opts : obj)
    (cs : list str) :
  mergeOptions options = Ok opts ->
  glyphs opts = Ok cs ->
  forallb escapeFree cs = true ->
  (forall base, exists out,
      applyColors opts base = Ok out /\
      forallb (fun q => negb (includes out q)) (markerPatterns cs) = true /\
      (forallb plainGlyph cs = true ->
       markerCount out = strayMarkers (markerPatterns cs) base)) /\
  (forall rnd res,
      ctree options rnd = Ok res ->
      forallb (fun q => negb (includes res q)) (markerPatterns cs) = true /\
      exists colored,
        (text <- substituted opts ;; applyColorsToLights opts rnd text)
        = Ok colored /\
        applyColors opts colored = Ok res /\
        (forallb plainGlyph cs = true ->
         markerCount res = strayMarkers (markerPatterns cs) colored)).
Proof.
  intros Hm Hg Hfree. split.
  - intros base. exists (paint cs base).
    split; [now apply applyColors_paint|].
    split; [now apply paint_clears|]. intros Hplain. now apply paint_strays.
  - intros rnd res Hres. unfold ctree in Hres. rewrite Hm in Hres.
    cbn [bind] in Hres.
    destruct (substituted opts) as [text| |]; try discriminate.
    cbn [bind] in *.
    destruct (applyColorsToLights opts rnd text) as [colored| |];
      try discriminate.
    cbn [bind] in Hres.
    pose proof Hres as Hap.
    rewrite (applyColors_paint _ _ _ Hg) in Hres. inversion Hres; subst res.
    split; [now apply paint_clears|].
    exists colored. split; [reflexivity|]. split; [exact Hap|].
    intros Hplain. now apply paint_strays.
Qed.

Lemma C7_escape_free_glyphs_consumed_witness :
  (exists out,
      applyColors defaultOptions (lit "yA g/ y5 b| yZ") = Ok out /\
      forallb (fun q => negb (includes out q))
        (markerPatterns [lit "|"; lit "+"; lit "-"; lit "-"; lit "A"; lit "*"])
      = true /\
      markerCount out = 2) /\
  ctree (VObject [ (lit "stars", VString (lit "5")) ]) zeroDraws
  = Ok digitStarTree /\
  forallb (fun q => negb (includes digitStarTree q))
    (markerPatterns [lit "|"; lit "+"; lit "-"; lit "-"; lit "A"; lit "5"])
  = true /\
  markerCount digitStarTree = 9.
Proof.
  split.
  - destruct (C7_escape_free_glyphs_consumed VUndefined defaultOptions
                [lit "|"; lit "+"; lit "-"; lit "-"; lit "A"; lit "*"]
                eq_refl eq_refl eq_refl) as [Hbase _].
    destruct (Hbase (lit "yA g/ y5 b| yZ")) as (out & Hout & Hno & Hcount).
    exists out. split; [exact Hout|]. split; [exact Hno|].
    rewrite (Hcount eq_refl). reflexivity.
  - assert (H : ctree (VObject [ (lit "stars", VString (lit "5")) ]) zeroDraws
                = Ok digitStarTree) by (vm_compute; reflexivity).
    split; [exact H|].
    destruct (C7_escape_free_glyphs_consumed
                (VObject [ (lit "stars", VString (lit "5")) ])
                [ (lit "star", VObject defaultStar);
                  (lit "balls", VString (lit "O"));
                  (lit "stars", VString (lit "5")) ]
                [lit "|"; lit "+"; lit "-"; lit "-"; lit "A"; lit "5"]
                eq_refl eq_refl eq_refl) as [_ Hcall].
    destruct (Hcall zeroDraws digitStarTree H)
      as (Hno & colored & Hcol & _ & Hcount).
    split; [exact Hno|]. rewrite (Hcount eq_refl).
    vm_compute in Hcol. inversion Hcol; subst colored.
    vm_compute. reflexivity.
Defined.
